(** * cloudplow, [utils/rclone.py]: the trigger tracker of [RcloneSyncer]

    A shallow embedding of [RcloneSyncer.__init__] and
    [RcloneSyncer.sync_logic], and the properties of the trigger-tracking
    logic: when a trigger fires, what an evaluation leaves untouched, the
    shape of the tracked state.

    Modelling choices, all read off the source:
    - a Python [dict] whose iteration order is observed ([rclone_sleeps],
      iterated by [.items()]) is an association list in insertion order;
      a [dict] that is only indexed ([trigger_tracks], one trigger's
      configuration) is a [gmap];
    - [time.time()] is a read of a clock: the k-th read made during one call
      of [sync_logic] returns [clock k].  Timestamps are integers (seconds);
      the rounding of floating-point addition is not modelled, the
      [OverflowError] of adding an [int] too large for a float is;
    - [time.strftime(..., time.localtime(t))] returns or raises as the
      platform decides: it is part of the clock, and accepts at least the
      times within a day after a read of that clock;
    - a failed [d[key]] raises [KeyError]; an exception leaves the object as
      mutated so far, so an evaluation returns the final object together
      with either a value or the exception;
    - the occurrence count of a tracked trigger is a [nat]: the code only
      ever stores 0, 1 or a successor there;
    - [log.warning] has no effect on the object or the result; what is
      evaluated for its arguments is kept, since it can raise: the [d[key]]
      lookups and the formatting of the expiry time;
    - a character of a [string] is a code point below 256, on which
      [str.lower] is [Str.lower]; [Unicode] has the test of line 129 on
      text of any code points, with the rows of the Unicode database as a
      parameter. *)

From Stdlib Require Import ZArith Lia Ascii String List Bool.
From stdpp Require Import base option list strings gmap.

Local Open Scope Z_scope.
Local Open Scope string_scope.

(** ** Python strings: [str.lower] and the [in] operator *)

Module Str.

(** The lowercase of a code point below 256: A-Z, and the capital letters
    from 192 to 222 other than the multiplication sign (215). *)
Definition lower_char (c : ascii) : ascii :=
  let n := nat_of_ascii c in
  if ((65 <=? n) && (n <=? 90)
      || (192 <=? n) && (n <=? 222) && negb (n =? 215))%nat
  then ascii_of_nat (n + 32) else c.

(** [s.lower()] *)
Fixpoint lower (s : string) : string :=
  match s with
  | EmptyString => EmptyString
  | String c s' => String (lower_char c) (lower s')
  end.

(** [s.startswith(p)] *)
Fixpoint startswith (p s : string) : bool :=
  match p, s with
  | EmptyString, _ => true
  | String a p', String b s' => if Ascii.eqb a b then startswith p' s' else false
  | String _ _, EmptyString => false
  end.

(** [sub in s]: [sub] occurs in [s] at some position *)
Fixpoint contains (sub s : string) : bool :=
  startswith sub s ||
  match s with
  | EmptyString => false
  | String _ s' => contains sub s'
  end.

End Str.

(** ** Exceptions, outcomes and the evaluation monad *)

Inductive exn : Type :=
| KeyError (key : string)
| OverflowError
| OSError.

Inductive outcome (A : Type) : Type :=
| Return (a : A)
| Raise (e : exn).
Arguments Return {A} a.
Arguments Raise {A} e.

(** [d[key]] on a dict of numbers *)
Definition getitem (d : gmap string Z) (key : string) : outcome Z :=
  match d !! key with
  | Some v => Return v
  | None => Raise (KeyError key)
  end.

(** ** The data of [RcloneSyncer] *)

(** One entry of [self.trigger_tracks]: [{'count': c, 'expires': e}], where
    ['expires'] is a timestamp or the empty string [''] (here [None]). *)
Record Track : Type := mkTrack {
  count : nat;
  expires : option Z
}.

(** One value of [rclone_sleeps]: a dict with the keys ['count'],
    ['timeout'] and ['sleep'] when it is well formed. *)
Abbreviation TriggerConfig := (gmap string Z).

Abbreviation Sleeps := (list (string * TriggerConfig)).

Record RcloneSyncer : Type := mkSyncer {
  rclone_sleeps : Sleeps;
  trigger_tracks : gmap string Track;
  delayed_check : Z;
  delayed_trigger : option string;
  rclone_extras : list (string * string);
  dry_run : bool
}.

(** An endpoint configuration ([from_remote], [to_remote]): a dict in which
    the key ['rclone_sleeps'] may be missing. *)
Record Remote : Type := mkRemote {
  remote_rclone_sleeps : option Sleeps
}.

(** The keyword arguments [__init__] looks at. *)
Record Kwargs : Type := mkKwargs {
  kw_rclone_extras : option (list (string * string));
  kw_dry_run : option bool
}.

(** ** [misc.merge_dicts] *)

Module misc.

Fixpoint assoc_set (k : string) (v : TriggerConfig) (d : Sleeps) : Sleeps :=
  match d with
  | [] => [(k, v)]
  | (k', v') :: d' =>
      if String.eqb k k' then (k, v) :: d' else (k', v') :: assoc_set k v d'
  end.

(** Modelled from the spec: [utils/misc.py] is not among the sources.  The
    merged configuration holds the triggers of both endpoint configurations,
    and on a phrase defined by both the later source wins. *)
Definition merge_dicts (a b : Sleeps) : Sleeps :=
  fold_left (fun d kv => assoc_set (fst kv) (snd kv) d) b a.

End misc.

(** ** [RcloneSyncer.__init__] *)

Definition remote_getitem_rclone_sleeps (r : Remote) : outcome Sleeps :=
  match remote_rclone_sleeps r with
  | Some d => Return d
  | None => Raise (KeyError "rclone_sleeps")
  end.

(** [__init__], with [misc.merge_dicts] as a parameter that returns the
    merged dict or raises. *)
Definition init_with (merge : Sleeps -> Sleeps -> outcome Sleeps)
    (from_remote to_remote : Remote) (kwargs : Kwargs)
  : outcome RcloneSyncer :=
  match remote_getitem_rclone_sleeps from_remote with
  | Raise e => Raise e
  | Return from_sleeps =>
      match remote_getitem_rclone_sleeps to_remote with
      | Raise e => Raise e
      | Return to_sleeps =>
          match merge from_sleeps to_sleeps with
          | Raise e => Raise e
          | Return merged =>
              Return {| rclone_sleeps := merged;
                        trigger_tracks := ∅;
                        delayed_check := 0;
                        delayed_trigger := None;
                        rclone_extras :=
                          match kw_rclone_extras kwargs with
                          | Some e => e
                          | None => []
                          end;
                        dry_run :=
                          match kw_dry_run kwargs with
                          | Some b => b
                          | None => false
                          end |}
          end
      end
  end.

(** [__init__] with the merge of the spec. *)
Definition __init__ (from_remote to_remote : Remote) (kwargs : Kwargs)
  : outcome RcloneSyncer :=
  init_with (fun a b => Return (misc.merge_dicts a b))
            from_remote to_remote kwargs.

(** ** [RcloneSyncer.sync_logic] *)

(** The state of one call: the object, and how many times the clock has
    been read so far. *)
Record World : Type := mkWorld {
  self : RcloneSyncer;
  ticks : nat
}.

Definition M (A : Type) : Type := World -> World * outcome A.

Definition ret {A} (a : A) : M A := fun w => (w, Return a).

Definition bind {A B} (m : M A) (f : A -> M B) : M B :=
  fun w =>
    match m w with
    | (w', Return a) => f a w'
    | (w', Raise e) => (w', Raise e)
    end.

Declare Scope py_scope.
Delimit Scope py_scope with py.
Notation "x <- m ;; k" := (bind m (fun x => k))
  (at level 100, m at level 99, right associativity) : py_scope.
Notation "m ;;; k" := (bind m (fun _ => k))
  (at level 100, right associativity) : py_scope.

Definition lift {A} (o : outcome A) : M A := fun w => (w, o).

Definition get_tracks : M (gmap string Track) :=
  fun w => (w, Return (trigger_tracks (self w))).

(** [self.trigger_tracks[k] = t] *)
Definition set_track (k : string) (t : Track) : M unit :=
  fun w =>
    let s := self w in
    ({| self := {| rclone_sleeps := rclone_sleeps s;
                   trigger_tracks := <[k := t]> (trigger_tracks s);
                   delayed_check := delayed_check s;
                   delayed_trigger := delayed_trigger s;
                   rclone_extras := rclone_extras s;
                   dry_run := dry_run s |};
        ticks := ticks w |}, Return tt).

(** [self.delayed_check = v] *)
Definition set_delayed_check (v : Z) : M unit :=
  fun w =>
    let s := self w in
    ({| self := {| rclone_sleeps := rclone_sleeps s;
                   trigger_tracks := trigger_tracks s;
                   delayed_check := v;
                   delayed_trigger := delayed_trigger s;
                   rclone_extras := rclone_extras s;
                   dry_run := dry_run s |};
        ticks := ticks w |}, Return tt).

(** [self.delayed_trigger = t] *)
Definition set_delayed_trigger (t : string) : M unit :=
  fun w =>
    let s := self w in
    ({| self := {| rclone_sleeps := rclone_sleeps s;
                   trigger_tracks := trigger_tracks s;
                   delayed_check := delayed_check s;
                   delayed_trigger := Some t;
                   rclone_extras := rclone_extras s;
                   dry_run := dry_run s |};
        ticks := ticks w |}, Return tt).

(** [trigger_text.lower() in data.lower()] *)
Definition matches (trigger_text data : string) : bool :=
  Str.contains (Str.lower trigger_text) (Str.lower data).

(** ** The [time] module

    [clock k] is what the k-th call of [time.time()] returns;
    [strftime_localtime clock t] is the evaluation of
    [time.strftime(fmt, time.localtime(t))], which returns ([Return tt],
    the text is only logged) or raises.  A platform can format the times
    its clock returns and those within a day after them. *)
Record Clock : Type := mkClock {
  read :> nat -> Z;
  strftime_localtime : Z -> outcome unit;
  formats_near_now : forall k d,
    0 <= d <= 86400 -> strftime_localtime (read k + d) = Return tt
}.

(** [x + n] for a float [x] and an [int] [n] converts [n] to a float, which
    raises [OverflowError] from [2**1024 - 2**970] on. *)
Definition float_of_int (n : Z) : outcome unit :=
  if (Z.abs n <? 2 ^ 1024 - 2 ^ 970)%Z then Return tt
  else Raise OverflowError.

Section SyncLogic.

Local Open Scope py_scope.

Variable clock : Clock.
Variable data : string.

Definition time_time : M Z :=
  fun w => ({| self := self w; ticks := S (ticks w) |}, Return (clock (ticks w))).

(** Lines 122-126: check/reset trigger timeout.  The clock is read only
    when the trigger is tracked with an expiry ([and] short-circuits). *)
Definition check_reset (trigger_text : string) : M unit :=
  tracks <- get_tracks ;;
  match tracks !! trigger_text with
  | Some {| count := _; expires := Some e |} =>
      now <- time_time ;;
      if now >=? e
      then set_track trigger_text {| count := 0; expires := None |}
      else ret tt
  | _ => ret tt
  end.

(** Lines 129-153: the trigger occurs in [data]. *)
Definition track_match (trigger_text : string) (trigger_config : TriggerConfig)
  : M bool :=
  tracks <- get_tracks ;;
  match tracks !! trigger_text with
  | Some {| count := S c; expires := e |} =>
      (* trigger_text WAS seen before increase count *)
      set_track trigger_text {| count := S (S c); expires := e |} ;;;
      lift (getitem trigger_config "count") ;;;
      lift (getitem trigger_config "timeout") ;;;
      limit <- lift (getitem trigger_config "count") ;;
      if Z.of_nat (S (S c)) >=? limit then
        lift (getitem trigger_config "count") ;;;
        lift (getitem trigger_config "timeout") ;;;
        sleep <- lift (getitem trigger_config "sleep") ;;
        set_delayed_check sleep ;;;
        set_delayed_trigger trigger_text ;;;
        ret true
      else ret false
  | _ =>
      (* set initial tracking info for trigger *)
      now <- time_time ;;
      timeout <- lift (getitem trigger_config "timeout") ;;
      lift (float_of_int timeout) ;;;
      set_track trigger_text {| count := 1; expires := Some (now + timeout) |} ;;;
      lift (getitem trigger_config "timeout") ;;;
      lift (strftime_localtime clock (now + timeout)) ;;;
      ret false
  end.

(** The body of the [for] loop; [true] stands for [return True]. *)
Definition loop_body (trigger_text : string) (trigger_config : TriggerConfig)
  : M bool :=
  check_reset trigger_text ;;;
  if matches trigger_text data
  then track_match trigger_text trigger_config
  else ret false.

(** [for trigger_text, trigger_config in self.rclone_sleeps.items(): ...]
    followed by [return False]. *)
Fixpoint loop (items : Sleeps) : M bool :=
  match items with
  | [] => ret false
  | (trigger_text, trigger_config) :: rest =>
      fired <- loop_body trigger_text trigger_config ;;
      if fired then ret true else loop rest
  end.

Definition sync_logic (s : RcloneSyncer) : RcloneSyncer * outcome bool :=
  let '(w, r) := loop (rclone_sleeps s) {| self := s; ticks := 0 |} in
  (self w, r).

End SyncLogic.

(** Feeding a sequence of chunks of output, each with the clock of its own
    call, to the same object: what the callback of a transfer does with
    [sync_logic], without the reaction to a fired trigger. *)
Fixpoint feed (chunks : list (Clock * string)) (s : RcloneSyncer)
  : RcloneSyncer * outcome (list bool) :=
  match chunks with
  | [] => (s, Return [])
  | (clock, data) :: rest =>
      match sync_logic clock data s with
      | (s', Return fired) =>
          match feed rest s' with
          | (s'', Return fs) => (s'', Return (fired :: fs))
          | (s'', Raise e) => (s'', Raise e)
          end
      | (s', Raise e) => (s', Raise e)
      end
  end.

(** ** The test of line 129 on text of any code points

    [str.lower] as CPython computes it: every character is replaced by
    its full lowercase mapping, except the capital sigma (U+03A3), which
    becomes the final small sigma (U+03C2) when a cased character comes
    before it and none after it, case-ignorable characters being skipped,
    and the small sigma (U+03C3) otherwise.  The rows of the Unicode
    database are a parameter. *)

Module Unicode.

Record UCD : Type := mkUCD {
  to_lower_full : N -> list N;
  is_cased : N -> bool;
  is_case_ignorable : N -> bool
}.

Definition capital_sigma : N := 931.
Definition final_sigma : N := 962.
Definition small_sigma : N := 963.

Section Lower.

Variable U : UCD.

(** The first character that is not case-ignorable. *)
Fixpoint first_not_ignorable (l : list N) : option N :=
  match l with
  | [] => None
  | c :: l' =>
      if is_case_ignorable U c then first_not_ignorable l' else Some c
  end.

(** [before] is the text before the sigma, nearest character first. *)
Definition in_final_position (before after : list N) : bool :=
  match first_not_ignorable before with
  | Some c =>
      is_cased U c &&
      match first_not_ignorable after with
      | Some c' => negb (is_cased U c')
      | None => true
      end
  | None => false
  end.

Fixpoint lower_from (before s : list N) : list N :=
  match s with
  | [] => []
  | c :: s' =>
      (if N.eqb c capital_sigma
       then [if in_final_position before s' then final_sigma
             else small_sigma]
       else to_lower_full U c)
      ++ lower_from (c :: before) s'
  end.

(** [s.lower()] *)
Definition lower (s : list N) : list N := lower_from [] s.

End Lower.

Fixpoint startswith (p s : list N) : bool :=
  match p, s with
  | [], _ => true
  | a :: p', b :: s' => if N.eqb a b then startswith p' s' else false
  | _ :: _, [] => false
  end.

(** [sub in s] *)
Fixpoint contains (sub s : list N) : bool :=
  startswith sub s ||
  match s with
  | [] => false
  | _ :: s' => contains sub s'
  end.

(** [trigger_text.lower() in data.lower()] *)
Definition matches (U : UCD) (trigger_text data : list N) : bool :=
  contains (lower U trigger_text) (lower U data).

(** The code points of a [string]. *)
Fixpoint of_string (s : string) : list N :=
  match s with
  | EmptyString => []
  | String c s' => N_of_ascii c :: of_string s'
  end.

(** The database has, below 256, the lowercase mappings of
    [Str.lower_char]. *)
Definition latin1_rows (U : UCD) : Prop :=
  forall c : ascii, to_lower_full U (N_of_ascii c) = [N_of_ascii (Str.lower_char c)].

Definition between (lo hi c : N) : bool := N.leb lo c && N.leb c hi.

(** Rows of the database: the code points below 256 and the Greek letters
    from alpha to omega.  The other rows are not those of the database. *)
Definition rows : UCD :=
  {| to_lower_full := fun c =>
       if N.ltb c 256 then [N_of_ascii (Str.lower_char (ascii_of_N c))]
       else if between 913 929 c || between 931 937 c then [(c + 32)%N]
       else [c];
     is_cased := fun c =>
       between 65 90 c || between 97 122 c || N.eqb c 170 || N.eqb c 181
       || N.eqb c 186 || between 192 214 c || between 216 246 c
       || between 248 255 c || between 913 929 c || between 931 937 c
       || between 945 969 c;
     is_case_ignorable := fun c =>
       N.eqb c 39 || N.eqb c 46 || N.eqb c 58 || N.eqb c 94 || N.eqb c 96
       || N.eqb c 168 || N.eqb c 173 || N.eqb c 175 || N.eqb c 180
       || N.eqb c 183 || N.eqb c 184 |}.

End Unicode.

(** ** Case-insensitive occurrence, in the words of the spec

    Two characters are the same letter when they are equal or one is the
    capital of the other; a phrase occurs in a text, case apart, when a
    part of the text has the same letters as the phrase. *)

Definition is_capital (c : ascii) : bool :=
  let n := nat_of_ascii c in
  ((65 <=? n) && (n <=? 90)
   || (192 <=? n) && (n <=? 222) && negb (n =? 215))%nat.

Definition same_letter (a b : ascii) : bool :=
  Ascii.eqb a b
  || is_capital a && (nat_of_ascii b =? nat_of_ascii a + 32)%nat
  || is_capital b && (nat_of_ascii a =? nat_of_ascii b + 32)%nat.

Fixpoint same_letters (a b : string) : bool :=
  match a, b with
  | EmptyString, EmptyString => true
  | String x a', String y b' => same_letter x y && same_letters a' b'
  | _, _ => false
  end.

(** ** Predicates used in the statements *)

(** The phrases of a configuration, in iteration order. *)
Definition phrases (d : Sleeps) : list string := map fst d.

(** A trigger's configuration has the three keys [sync_logic] reads. *)
Definition config_ok (c : TriggerConfig) : Prop :=
  is_Some (c !! "count") /\ is_Some (c !! "timeout") /\ is_Some (c !! "sleep").


(** The invariant of one tracked state: the count is 0 exactly when no
    expiry is set. *)
Definition track_inv (t : Track) : Prop :=
  count t = 0%nat <-> expires t = None.

Definition tracks_inv (m : gmap string Track) : Prop :=
  forall k t, m !! k = Some t -> track_inv t.

(** [p] is a configured trigger of [s], with the given count, timeout and
    sleep; the phrases of a dict are pairwise distinct. *)
Definition configured (s : RcloneSyncer) (p : string) (N T sl : Z) : Prop :=
  NoDup (phrases (rclone_sleeps s)) /\
  exists cfg, In (p, cfg) (rclone_sleeps s) /\
              cfg !! "count" = Some N /\
              cfg !! "timeout" = Some T /\
              cfg !! "sleep" = Some sl.

(** No phrase of [d] other than [p] occurs in [data]. *)
Definition only_match (d : Sleeps) (p data : string) : Prop :=
  forall q, In q (phrases d) -> q <> p -> matches q data = false.

(** Every chunk contains [p] and no other configured phrase. *)
Definition occurs_alone (d : Sleeps) (p : string)
    (chunks : list (Clock * string)) : Prop :=
  Forall (fun ch => matches p (snd ch) = true /\ only_match d p (snd ch))
         chunks.

(** Every read of the clock made for these chunks is before [e]. *)
Definition before (e : Z) (chunks : list (Clock * string)) : Prop :=
  Forall (fun ch : Clock * string => forall k, fst ch k < e) chunks.

(** All the reads of the clock made for the chunks after the first are
    less than [T] after every read made for the first one: the chunks fall
    within one window of length [T]. *)
Definition in_window (T : Z) (chunks : list (Clock * string)) : Prop :=
  match chunks with
  | [] => True
  | (c1, _) :: rest =>
      forall ch : Clock * string,
        In ch rest -> forall k k', fst ch k < c1 k' + T
  end.

(** The condition of line 131: the phrase is not in [trigger_tracks], or
    its count is 0. *)
Definition untracked (o : option Track) : Prop :=
  match o with
  | None => True
  | Some t => count t = 0%nat
  end.

(** When [data] matches, the tracked state [o] of a phrase makes the
    iteration start a new window: the phrase is not tracked, or its count is
    0, or its expiry has been reached at every read of the clock. *)
Definition restarts (clock : Clock) (o : option Track) : Prop :=
  match o with
  | None => True
  | Some {| count := O; expires := _ |} => True
  | Some {| count := S _; expires := Some e |} => forall k, e <= clock k
  | Some {| count := S _; expires := None |} => False
  end.

(** The tracked state [o] has not expired at any read of the clock. *)
Definition live (clock : Clock) (o : option Track) : Prop :=
  forall t e, o = Some t -> expires t = Some e -> forall k, clock k < e.

(** A window of length [T] can be opened at this clock: the timeout can be
    added to a read of the clock, and the expiry it gives can be formatted
    for the log line. *)
Definition can_open (clock : Clock) (T : Z) : Prop :=
  float_of_int T = Return tt /\
  forall k, strftime_localtime clock (clock k + T) = Return tt.

(** The window can be opened at the clock of the first chunk, and at the
    clock of every chunk. *)
Definition first_can_open (T : Z) (chunks : list (Clock * string)) : Prop :=
  match chunks with
  | [] => True
  | (c1, _) :: _ => can_open c1 T
  end.

Definition all_can_open (T : Z) (chunks : list (Clock * string)) : Prop :=
  Forall (fun ch : Clock * string => can_open (fst ch) T) chunks.


(** ** Concrete clocks

    A platform with a 64-bit [time_t] that formats the times from the epoch
    to [2^41] seconds after it: outside [time_t] the conversion raises
    [OverflowError], elsewhere [localtime] raises [OSError].  Its clock
    returns times from the epoch to [2^40] seconds after it. *)

Definition epoch_format (t : Z) : outcome unit :=
  if ((t <? - 9223372036854775808) || (9223372036854775808 <=? t))%Z
  then Raise OverflowError
  else if ((0 <=? t) && (t <=? 2199023255552))%Z then Return tt
  else Raise OSError.

Definition clamp (t : Z) : Z := Z.max 0 (Z.min t 1099511627776).

(** The clock of that platform whose k-th read is [f k]. *)
Definition platform (f : nat -> Z) : Clock.
Proof.
  refine {| read := fun k => clamp (f k);
            strftime_localtime := epoch_format;
            formats_near_now := _ |}.
  intros k d Hd. unfold epoch_format, clamp.
  assert (H : 0 <= Z.max 0 (Z.min (f k) 1099511627776) <= 1099511627776)
    by lia.
  destruct (Z.ltb_spec (Z.max 0 (Z.min (f k) 1099511627776) + d)
              (- 9223372036854775808)); [lia|].
  destruct (Z.leb_spec 9223372036854775808
              (Z.max 0 (Z.min (f k) 1099511627776) + d)); [lia|].
  destruct (Z.leb_spec 0 (Z.max 0 (Z.min (f k) 1099511627776) + d)); [|lia].
  destruct (Z.leb_spec (Z.max 0 (Z.min (f k) 1099511627776) + d)
              2199023255552); [reflexivity|lia].
Defined.

(** The clock that stands at [t]. *)
Definition steady (t : Z) : Clock := platform (fun _ => t).

(** ** Concrete configurations *)

(** The dict [{'count': n, 'timeout': t, 'sleep': sl}]. *)
Definition trigger_config (n t sl : Z) : TriggerConfig :=
  <["count" := n]> (<["timeout" := t]> (<["sleep" := sl]> ∅)).

(** The object right after construction with the merged configuration [d],
    no extras and no dry run. *)
Definition new_syncer (d : Sleeps) : RcloneSyncer :=
  {| rclone_sleeps := d;
     trigger_tracks := ∅;
     delayed_check := 0;
     delayed_trigger := None;
     rclone_extras := [];
     dry_run := false |}.

Definition no_kwargs : Kwargs :=
  {| kw_rclone_extras := None; kw_dry_run := None |}.

(** ** Further predicates on tracked states and chunks *)

(** What one call may do to the tracked state of a phrase: leave it, reset
    it, open a window at count 1, or add one to the count. *)
Definition one_step (o o' : option Track) : Prop :=
  o' = o \/
  o' = Some {| count := 0; expires := None |} \/
  (exists t, o' = Some {| count := 1; expires := Some t |}) \/
  (exists c ex, o = Some {| count := c; expires := ex |} /\
                o' = Some {| count := S c; expires := ex |}).

(** The clock does not go backwards from one chunk to the next: every read
    made for a chunk is at most every read made for a later chunk. *)
Fixpoint ordered (chunks : list (Clock * string)) : Prop :=
  match chunks with
  | [] => True
  | (c, _) :: rest =>
      (forall ch : Clock * string,
         In ch rest -> forall k k', c k <= fst ch k') /\ ordered rest
  end.

(** * [RcloneUploader]: the command builder

    Modelling choices for the rest of the file:
    - [process.execute] is not among the sources: it is a parameter
      [execute], giving for a command its captured output, or [None] when
      the call raises;
    - [except Exception] catches whatever the [try] body raises, so the
      body is a value or [None]; what the [except] clause itself raises
      escapes;
    - a value of the configuration is a [str], or another object known by
      what ["%s" % value] gives for it;
    - [cmd_quote] is [shlex.quote] of the standard library ([pipes.quote]
      quotes in the same way);
    - to say what a command means, [Sh.words] splits a command line into
      words by the quoting rules of a shell. *)

(** ** More of Python's [str]: [join], [replace], [strip]

    The characters of the model are those below 256. *)

Module PyStr.

(** [c.isspace()] *)
Definition isspace (c : ascii) : bool :=
  let n := nat_of_ascii c in
  ((9 <=? n) && (n <=? 13) || (28 <=? n) && (n <=? 32)
   || (n =? 133) || (n =? 160))%nat.

(** [s.lstrip()] *)
Fixpoint lstrip (s : string) : string :=
  match s with
  | EmptyString => EmptyString
  | String c s' => if isspace c then lstrip s' else s
  end.

(** [s.rstrip()] *)
Fixpoint rstrip (s : string) : string :=
  match s with
  | EmptyString => EmptyString
  | String c s' =>
      match rstrip s' with
      | EmptyString => if isspace c then EmptyString else String c EmptyString
      | r => String c r
      end
  end.

(** [s.strip()] *)
Definition strip (s : string) : string := rstrip (lstrip s).

(** [sep.join(l)] *)
Fixpoint join (sep : string) (l : list string) : string :=
  match l with
  | [] => EmptyString
  | [x] => x
  | x :: rest => x ++ sep ++ join sep rest
  end.

(** [s.replace(old, new)] for a non-empty [old]: the occurrences of [old]
    are found from left to right and do not overlap.  [skip] counts the
    characters of an occurrence still to be dropped. *)
Fixpoint replace_from (old new : string) (skip : nat) (s : string) : string :=
  match s with
  | EmptyString => EmptyString
  | String c s' =>
      match skip with
      | S k => replace_from old new k s'
      | O =>
          if Str.startswith old s
          then new ++ replace_from old new (String.length old - 1) s'
          else String c (replace_from old new 0 s')
      end
  end.

Definition replace (old new s : string) : string := replace_from old new 0 s.

End PyStr.

(** ** [shlex.quote] (imported as [cmd_quote]) *)

Module shlex.

(** The characters that match [[\w@%+=:,./-]] under [re.ASCII]. *)
Definition safe_char (c : ascii) : bool :=
  let n := nat_of_ascii c in
  ((48 <=? n) && (n <=? 57) || (65 <=? n) && (n <=? 90)
   || (97 <=? n) && (n <=? 122) || (n =? 95)
   || (n =? 64) || (n =? 37) || (n =? 43) || (n =? 61) || (n =? 58)
   || (n =? 44) || (n =? 46) || (n =? 47) || (n =? 45))%nat.

Fixpoint all_safe (s : string) : bool :=
  match s with
  | EmptyString => true
  | String c s' => safe_char c && all_safe s'
  end.

(** A single quote, closed, inside double quotes, and a single quote
    opened again: the five characters that replace a single quote. *)
Definition escaped_quote : string :=
  String "'" (String "034" (String "'" (String "034" (String "'" "")))).

Definition quote (s : string) : string :=
  match s with
  | EmptyString => "''"
  | _ =>
      if all_safe s then s
      else String "'" (PyStr.replace "'" escaped_quote s ++ "'")
  end.

End shlex.

Definition cmd_quote : string -> string := shlex.quote.

(** ** How a shell splits a command line into words

    Outside quotes, blanks separate words and only the characters that need
    no quoting are accepted; single quotes keep everything up to the next
    single quote; double quotes keep everything up to the next double quote,
    and the characters that stay special inside them (backslash, dollar,
    backquote) are not accepted.  [None]: the line is not of this plain
    form. *)

Module Sh.

Inductive mode : Type := Plain | Single | Double.

Definition blank (c : ascii) : bool :=
  let n := nat_of_ascii c in ((n =? 32) || (n =? 9) || (n =? 10))%nat.

Definition close (cur : option string) (acc : list string) : list string :=
  match cur with
  | Some w => w :: acc
  | None => acc
  end.

Definition add (cur : option string) (c : ascii) : option string :=
  match cur with
  | Some w => Some (w ++ String c "")
  | None => Some (String c "")
  end.

Definition start (cur : option string) : option string :=
  match cur with
  | Some w => Some w
  | None => Some ""
  end.

Fixpoint scan (m : mode) (cur : option string) (acc : list string)
    (s : string) : option (list string) :=
  match s with
  | EmptyString =>
      match m with
      | Plain => Some (rev (close cur acc))
      | _ => None
      end
  | String c s' =>
      match m with
      | Plain =>
          if blank c then scan Plain None (close cur acc) s'
          else if Ascii.eqb c "'" then scan Single (start cur) acc s'
          else if Ascii.eqb c "034" then scan Double (start cur) acc s'
          else if shlex.safe_char c then scan Plain (add cur c) acc s'
          else None
      | Single =>
          if Ascii.eqb c "'" then scan Plain cur acc s'
          else scan Single (add cur c) acc s'
      | Double =>
          if Ascii.eqb c "034" then scan Plain cur acc s'
          else if Ascii.eqb c "\" || Ascii.eqb c "$" || Ascii.eqb c "`"
          then None
          else scan Double (add cur c) acc s'
      end
  end.

Definition words (s : string) : option (list string) := scan Plain None [] s.

End Sh.

(** ** [RcloneUploader] *)

Module Uploader.

(** A value of the configuration: a [str], or anything else together with
    what ["%s" % value] gives for it ([None] gives ["None"]). *)
Inductive pyval : Type :=
| PStr (s : string)
| PObj (shown : string).

(** [self.config], with the keys the class reads; [None]: the key is
    missing. *)
Record Config : Type := mkConfig {
  upload_folder : option string;
  upload_remote : option string;
  rclone_extras : option (list (string * pyval));
  rclone_excludes : option (list pyval)
}.

Record RcloneUploader : Type := mkUploader {
  name : string;
  config : Config;
  dry_run : bool
}.

Definition __init__ (name : string) (config : Config) (dry_run : bool)
  : RcloneUploader :=
  {| name := name; config := config; dry_run := dry_run |}.

(** [cmd_quote(value) if isinstance(value, str) else value], formatted
    with [%s]. *)
Definition shown (v : pyval) : string :=
  match v with
  | PStr s => cmd_quote s
  | PObj t => t
  end.

(** ["%s=%s" % (key, ...)] for one entry of the dict. *)
Definition entry_text (kv : string * pyval) : string :=
  fst kv ++ "=" ++ shown (snd kv).

(** [__extras2string] on the dict [d]. *)
Definition extras2string_of (d : list (string * pyval)) : string :=
  PyStr.strip
    (PyStr.replace "=None" "" (PyStr.join " " (map entry_text d))).

(** [__excludes2string] on the list [l]. *)
Definition excludes2string_of (l : list pyval) : string :=
  PyStr.strip
    (PyStr.replace "=None" ""
       (PyStr.join " " (map (fun v => "--exclude=" ++ shown v) l))).

(** The body of a [try]: a value, or [None] when an exception was raised;
    [except Exception] does not look at which. *)
Definition extras2string (self : RcloneUploader) : option string :=
  match rclone_extras (config self) with
  | Some d => Some (extras2string_of d)
  | None => None
  end.

Definition excludes2string (self : RcloneUploader) : option string :=
  match rclone_excludes (config self) with
  | Some l => Some (excludes2string_of l)
  | None => None
  end.

Definition with_dry_run (self : RcloneUploader) (cmd : string) : string :=
  if dry_run self then cmd ++ " --dry-run" else cmd.

(** The command of [delete_file]. *)
Definition delete_file_cmd (self : RcloneUploader) (path : string) : string :=
  with_dry_run self ("rclone delete " ++ cmd_quote path).

(** The command of [delete_folder]. *)
Definition delete_folder_cmd (self : RcloneUploader) (path : string)
  : string :=
  with_dry_run self ("rclone rmdir " ++ cmd_quote path).

(** The command of [upload]; [None] when building it raises. *)
Definition upload_cmd (self : RcloneUploader) : option string :=
  match upload_folder (config self), upload_remote (config self) with
  | Some folder, Some remote =>
      let cmd := "rclone move " ++ cmd_quote folder ++ " " ++ cmd_quote remote in
      match extras2string self with
      | None => None
      | Some extras =>
          let cmd := if (2 <? String.length extras)%nat
                     then cmd ++ " " ++ extras else cmd in
          match excludes2string self with
          | None => None
          | Some excludes =>
              let cmd := if (2 <? String.length excludes)%nat
                         then cmd ++ " " ++ excludes else cmd in
              Some (with_dry_run self cmd)
          end
      end
  | _, _ => None
  end.

(** An entry of [rclone_extras] this development follows through the
    rendering: the key is a non-empty word of characters that need no
    quoting, without [=]; the value is shown as [None], or is shown without
    [=] and not beginning with [None], a value that is not a [str] being
    shown with characters that need no quoting. *)
Definition plain_value (v : pyval) : Prop :=
  shown v = "None" \/
  (Str.contains "=" (shown v) = false /\
   Str.startswith "None" (shown v) = false /\
   match v with
   | PStr _ => True
   | PObj t => shlex.all_safe t = true
   end).

Definition plain_key (k : string) : Prop :=
  k <> "" /\ shlex.all_safe k = true /\ Str.contains "=" k = false.

Definition plain_entry (kv : string * pyval) : Prop :=
  plain_key (fst kv) /\ plain_value (snd kv).

(** The text of an entry once [=None] is taken out: the key alone when
    the value is shown as [None], the entry as it is otherwise. *)
Definition flag_text (kv : string * pyval) : string :=
  if String.eqb (shown (snd kv)) "None" then fst kv else entry_text kv.

(** The word an entry stands for: the key alone when the value is shown as
    [None], [key=value] otherwise. *)
Definition flag_word (kv : string * pyval) : string :=
  if String.eqb (shown (snd kv)) "None" then fst kv
  else fst kv ++ "=" ++ match snd kv with
                        | PStr s => s
                        | PObj t => t
                        end.

Section Process.

(** [process.execute(cmd, ...)]: the captured output of the command, or
    [None] when the call raises. *)
Variable execute : string -> option string.

Definition delete_file (self : RcloneUploader) (path : string)
  : outcome bool :=
  match execute (delete_file_cmd self path) with
  | Some resp =>
      if Str.contains "Failed to delete" resp then Return false
      else Return true
  | None => Return false
  end.

Definition delete_folder (self : RcloneUploader) (path : string)
  : outcome bool :=
  match execute (delete_folder_cmd self path) with
  | Some resp =>
      if Str.contains "Failed to rmdir" resp then Return false
      else Return true
  | None => Return false
  end.

(** The [except] clause of [upload] reads [self.config['upload_folder']]
    for its log line: with the key missing it raises in its turn. *)
Definition upload_handler (self : RcloneUploader) : outcome bool :=
  match upload_folder (config self) with
  | Some _ => Return false
  | None => Raise (KeyError "upload_folder")
  end.

Definition upload (self : RcloneUploader) : outcome bool :=
  match upload_cmd self with
  | Some cmd =>
      match execute cmd with
      | Some _ => Return true
      | None => upload_handler self
      end
  | None => upload_handler self
  end.

End Process.

End Uploader.

(** ** Proof tools *)

Abbreviation tracks w := (trigger_tracks (self w)).

Ltac unfold_body :=
  unfold loop_body, check_reset, track_match, bind, get_tracks, time_time,
    set_track, set_delayed_check, set_delayed_trigger, lift, ret, getitem in *.

(** Case analysis along the [match]es and [if]s of an unfolded body. *)
Ltac body_cases :=
  unfold_body; simpl in *;
  repeat (case_match; simpl in *; simplify_eq; try done);
  simpl in *.

Ltac geb_to_prop :=
  rewrite ?Z.geb_leb in *;
  repeat match goal with
    | H : (_ <=? _)%Z = true |- _ => apply Z.leb_le in H
    | H : (_ <=? _)%Z = false |- _ => apply Z.leb_gt in H
    end.

(** ** Strings *)

Module StrFacts.
Import Str.

Lemma app_nil (s : string) : "" ++ s = s.
Proof. reflexivity. Qed.

Lemma app_cons (c : ascii) (a b : string) :
  String c a ++ b = String c (a ++ b).
Proof. reflexivity. Qed.

Lemma startswith_app (p r : string) : startswith p (p ++ r) = true.
Proof.
  induction p as [|a p IH]; [reflexivity|].
  rewrite app_cons. simpl. now rewrite Ascii.eqb_refl.
Qed.

Lemma startswith_inv (p : string) :
  forall s, startswith p s = true -> exists r, s = p ++ r.
Proof.
  induction p as [|a p IH]; intros s H.
  - exists s. reflexivity.
  - destruct s as [|b s]; simpl in H; [discriminate|].
    destruct (Ascii.eqb_spec a b) as [->|]; [|discriminate].
    destruct (IH _ H) as [r ->]. exists r. reflexivity.
Qed.

Lemma contains_startswith (sub s : string) :
  startswith sub s = true -> contains sub s = true.
Proof. intros H. destruct s; simpl in *; rewrite H; reflexivity. Qed.

Lemma contains_intro (sub : string) :
  forall l r, contains sub (l ++ sub ++ r) = true.
Proof.
  induction l as [|c l IH]; intros r.
  - rewrite app_nil. apply contains_startswith, startswith_app.
  - rewrite app_cons. simpl. rewrite IH. apply orb_true_r.
Qed.

Lemma contains_inv (sub : string) :
  forall s, contains sub s = true -> exists l r, s = l ++ sub ++ r.
Proof.
  induction s as [|c s IH]; simpl; intros H.
  - rewrite orb_false_r in H. apply startswith_inv in H as [r Hr].
    exists "", r. exact Hr.
  - apply orb_true_iff in H as [H|H].
    + apply startswith_inv in H as [r Hr]. exists "", r. exact Hr.
    + destruct (IH H) as (l & r & ->). exists (String c l), r. reflexivity.
Qed.

Lemma lower_app (a b : string) : lower (a ++ b) = lower a ++ lower b.
Proof.
  induction a as [|x a IH]; [reflexivity|].
  rewrite app_cons. simpl. rewrite IH. reflexivity.
Qed.

End StrFacts.

Lemma matches_iff (trigger_text data : string) :
  matches trigger_text data = true <->
  exists l r, Str.lower data = l ++ Str.lower trigger_text ++ r.
Proof.
  unfold matches. split.
  - apply StrFacts.contains_inv.
  - intros (l & r & ->). apply StrFacts.contains_intro.
Qed.

(** A phrase that occurs literally in the text matches. *)
Lemma matches_literal (p l r : string) : matches p (l ++ p ++ r) = true.
Proof.
  apply matches_iff. exists (Str.lower l), (Str.lower r).
  now rewrite !StrFacts.lower_app.
Qed.

(** ** One iteration of the loop *)

Section Body.

Variable clock : Clock.
Variable data : string.

(** What an iteration never touches: the configuration, the other
    attributes, and the tracked state of the other phrases. *)
Lemma loop_body_frame p cfg w w' r :
  loop_body clock data p cfg w = (w', r) ->
  rclone_sleeps (self w') = rclone_sleeps (self w) /\
  rclone_extras (self w') = rclone_extras (self w) /\
  dry_run (self w') = dry_run (self w) /\
  (forall q, q <> p -> tracks w' !! q = tracks w !! q).
Proof.
  intros H. body_cases.
  all: repeat split; try done; intros q Hq.
  all: rewrite ?lookup_insert_ne by done; done.
Qed.

(** The cooldown attributes are written only by an iteration that returns
    [True]. *)
Lemma loop_body_delayed p cfg w w' r :
  loop_body clock data p cfg w = (w', r) ->
  r <> Return true ->
  delayed_check (self w') = delayed_check (self w) /\
  delayed_trigger (self w') = delayed_trigger (self w).
Proof. intros H Hr. body_cases. Qed.

(** Every state an iteration writes satisfies the invariant. *)
Lemma loop_body_inv p cfg w w' r :
  loop_body clock data p cfg w = (w', r) ->
  tracks_inv (tracks w) -> tracks_inv (tracks w').
Proof.
  intros H Hinv.
  assert (Hstep : forall t, track_inv t ->
            tracks_inv (<[p := t]> (tracks w))).
  { intros t Ht k t' Hk. destruct (decide (p = k)) as [->|Hne].
    - rewrite lookup_insert_eq in Hk. congruence.
    - rewrite lookup_insert_ne in Hk by done. eauto. }
  assert (Hstep2 : forall t t', track_inv t -> track_inv t' ->
            tracks_inv (<[p := t]> (<[p := t']> (tracks w)))).
  { intros t t' Ht Ht'. rewrite insert_insert_eq. auto. }
  assert (H0 : track_inv {| count := 0; expires := None |}) by done.
  assert (H1 : forall z, track_inv {| count := 1; expires := Some z |}).
  { intros z. split; discriminate. }
  assert (HS : forall c e, track_inv {| count := S c; expires := e |} ->
            track_inv {| count := S (S c); expires := e |}).
  { intros c e [_ He]. split; simpl in *; [discriminate|].
    intros Hn. specialize (He Hn). discriminate. }
  body_cases.
  all: try (apply Hstep2 || apply Hstep); auto.
  all: try (apply HS; eapply Hinv; eassumption).
  all: rewrite lookup_insert_eq in *; simplify_eq.
Qed.


(** An iteration whose phrase does not occur in [data] only applies the
    lazy expiry. *)
Lemma loop_body_nomatch p cfg w w' r :
  loop_body clock data p cfg w = (w', r) ->
  matches p data = false ->
  r = Return false /\
  (tracks w' !! p = tracks w !! p \/
   exists c e k, tracks w !! p = Some {| count := c; expires := Some e |} /\
                 e <= clock k /\
                 tracks w' !! p = Some {| count := 0; expires := None |}) /\
  (forall c e, tracks w !! p = Some {| count := c; expires := Some e |} ->
               (forall k, e <= clock k) ->
               tracks w' !! p = Some {| count := 0; expires := None |}).
Proof.
  intros H Hm.
  body_cases; geb_to_prop; (split; [done|]); rewrite ?lookup_insert_eq;
    split.
  all: try (by left).
  all: try (right; eexists _, _, _; eauto; fail).
  all: intros c e He Hk; simplify_eq; try done.
  all: specialize (Hk (ticks w)); lia.
Qed.

(** First occurrence of a window: the state becomes [{1, now + timeout}]
    and the iteration does not return. *)
Lemma loop_body_init p cfg T w w' r :
  loop_body clock data p cfg w = (w', r) ->
  matches p data = true ->
  cfg !! "timeout" = Some T ->
  can_open clock T ->
  restarts clock (tracks w !! p) ->
  r = Return false /\
  (exists k, tracks w' !! p
             = Some {| count := 1; expires := Some (clock k + T) |}) /\
  delayed_check (self w') = delayed_check (self w) /\
  delayed_trigger (self w') = delayed_trigger (self w).
Proof.
  intros H Hm HT [Hf Hfmt] Hre. unfold restarts in Hre.
  body_cases; geb_to_prop; try congruence.
  all: rewrite ?lookup_insert_eq in *; simplify_eq.
  all: try (repeat split; eauto; fail).
  all: try (specialize (Hre (ticks w)); lia).
  all: try (rewrite Hfmt in *; congruence).
Qed.

(** A further occurrence inside the window: the count goes up by one, and
    the iteration returns [True] exactly when the new count reaches the
    configured one. *)
Lemma loop_body_incr p cfg N T sl c ex w w' r :
  loop_body clock data p cfg w = (w', r) ->
  matches p data = true ->
  cfg !! "count" = Some N ->
  cfg !! "timeout" = Some T ->
  cfg !! "sleep" = Some sl ->
  tracks w !! p = Some {| count := S c; expires := ex |} ->
  live clock (tracks w !! p) ->
  tracks w' !! p = Some {| count := S (S c); expires := ex |} /\
  if Z.of_nat (S (S c)) >=? N
  then r = Return true /\
       delayed_check (self w') = sl /\
       delayed_trigger (self w') = Some p
  else r = Return false /\
       delayed_check (self w') = delayed_check (self w) /\
       delayed_trigger (self w') = delayed_trigger (self w).
Proof.
  intros H Hm HN HT Hsl Htr Hlive. unfold live in Hlive.
  rewrite Htr in Hlive.
  body_cases; try congruence.
  all: rewrite ?lookup_insert_eq in *; simplify_eq.
  all: geb_to_prop;
    try (specialize (Hlive _ _ eq_refl eq_refl (ticks w)); simpl in *; lia).
  all: repeat split; done.
Qed.

(** What holds after an iteration that returned [True]. *)
Lemma loop_body_fired p cfg w w' :
  loop_body clock data p cfg w = (w', Return true) ->
  matches p data = true /\
  delayed_trigger (self w') = Some p /\
  exists c ex N T sl,
    tracks w' !! p = Some {| count := S (S c); expires := ex |} /\
    cfg !! "count" = Some N /\ N <= Z.of_nat (S (S c)) /\
    cfg !! "timeout" = Some T /\
    cfg !! "sleep" = Some sl /\ delayed_check (self w') = sl.
Proof.
  intros H. body_cases; geb_to_prop.
  all: split; [done|]; split; [done|].
  all: eexists _, _, _, _, _; rewrite lookup_insert_eq.
  all: repeat split; eauto.
Qed.

End Body.

(** ** The whole loop *)

Section Loop.

Variable clock : Clock.
Variable data : string.

Lemma loop_frame items : forall w w' r,
  loop clock data items w = (w', r) ->
  rclone_sleeps (self w') = rclone_sleeps (self w) /\
  rclone_extras (self w') = rclone_extras (self w) /\
  dry_run (self w') = dry_run (self w) /\
  (forall q, ~ In q (phrases items) -> tracks w' !! q = tracks w !! q).
Proof.
  induction items as [|[p cfg] items IH]; intros w w' r H; simpl in H.
  - unfold ret in H. simplify_eq. done.
  - unfold bind in H at 1.
    destruct (loop_body clock data p cfg w) as [w1 [[|]|e]] eqn:E;
      unfold ret in H; simplify_eq.
    + apply loop_body_frame in E as (-> & -> & -> & Hq).
      repeat split; try done. intros q Hn. apply Hq.
      intros ->. apply Hn. simpl. auto.
    + apply loop_body_frame in E as (E1 & E2 & E3 & Hq).
      apply IH in H as (-> & -> & -> & Hq').
      repeat split; try done. intros q Hn. simpl in Hn.
      rewrite Hq' by tauto. apply Hq. intros ->. tauto.
    + apply loop_body_frame in E as (-> & -> & -> & Hq).
      repeat split; try done. intros q Hn. apply Hq.
      intros ->. apply Hn. simpl. auto.
Qed.

Lemma loop_delayed items : forall w w' r,
  loop clock data items w = (w', r) ->
  r <> Return true ->
  delayed_check (self w') = delayed_check (self w) /\
  delayed_trigger (self w') = delayed_trigger (self w).
Proof.
  induction items as [|[p cfg] items IH]; intros w w' r H Hr; simpl in H.
  - unfold ret in H. simplify_eq. done.
  - unfold bind in H at 1.
    destruct (loop_body clock data p cfg w) as [w1 [[|]|e]] eqn:E;
      unfold ret in H; simplify_eq.
    + apply loop_body_delayed in E as [E1 E2]; [|done].
      apply IH in H as [-> ->]; done.
    + apply loop_body_delayed in E; done.
Qed.

Lemma loop_inv items : forall w w' r,
  loop clock data items w = (w', r) ->
  tracks_inv (tracks w) -> tracks_inv (tracks w').
Proof.
  induction items as [|[p cfg] items IH]; intros w w' r H Hinv; simpl in H.
  - unfold ret in H. simplify_eq. done.
  - unfold bind in H at 1.
    destruct (loop_body clock data p cfg w) as [w1 [[|]|e]] eqn:E;
      unfold ret in H; simplify_eq;
      apply loop_body_inv in E; eauto.
Qed.


Lemma loop_cons p cfg items w :
  loop clock data ((p, cfg) :: items) w =
  match loop_body clock data p cfg w with
  | (w1, Return true) => (w1, Return true)
  | (w1, Return false) => loop clock data items w1
  | (w1, Raise e) => (w1, Raise e)
  end.
Proof.
  simpl. unfold bind at 1.
  destruct (loop_body clock data p cfg w) as [w1 [[|]|e]]; reflexivity.
Qed.

(** No configured phrase occurs in [data]: nothing is returned, and every
    tracked state is either left as it was or reset by the lazy expiry. *)
Lemma loop_nomatch items : forall w w' r,
  loop clock data items w = (w', r) ->
  (forall q, In q (phrases items) -> matches q data = false) ->
  r = Return false /\
  (forall p,
     tracks w' !! p = tracks w !! p \/
     In p (phrases items) /\
     exists c e k, tracks w !! p = Some {| count := c; expires := Some e |} /\
                   e <= clock k /\
                   tracks w' !! p = Some {| count := 0; expires := None |}) /\
  (forall p c e,
     In p (phrases items) ->
     tracks w !! p = Some {| count := c; expires := Some e |} ->
     (forall k, e <= clock k) ->
     tracks w' !! p = Some {| count := 0; expires := None |}).
Proof.
  induction items as [|[q cfg] items IH]; intros w w' r H Hno.
  - simpl in H. unfold ret in H. simplify_eq.
    split; [done|]. split; [by left|]. intros p c e [].
  - rewrite loop_cons in H.
    destruct (loop_body clock data q cfg w) as [w1 r1] eqn:E.
    pose proof (loop_body_frame _ _ _ _ _ _ _ E) as (_ & _ & _ & Hfr).
    apply loop_body_nomatch in E as (-> & Hq & Hq'); [|apply Hno; simpl; auto].
    apply IH in H as (-> & Hp & Hp'); [|intros; apply Hno; simpl; auto].
    split; [done|]. split.
    + intros p. destruct (decide (p = q)) as [->|Hne].
      * destruct (Hp q) as [Hs|(Hin & c & e & k & H1 & H2 & H3)].
        -- rewrite Hs. destruct Hq as [Hs'|(c & e & k & H1 & H2 & H3)].
           ++ left. done.
           ++ right. split; [simpl; auto|]. eauto 6.
        -- destruct Hq as [Hs'|(c' & e' & k' & H1' & H2' & H3')].
           ++ right. split; [simpl; auto|]. rewrite <- Hs'. eauto 6.
           ++ congruence.
      * destruct (Hp p) as [Hs|(Hin & c & e & k & H1 & H2 & H3)].
        -- left. rewrite Hs. auto.
        -- right. split; [simpl; auto|]. rewrite <- Hfr by done. eauto 6.
    + intros p c e Hin Htr Hk. destruct (decide (p = q)) as [->|Hne].
      * specialize (Hq' _ _ Htr Hk).
        destruct (Hp q) as [Hs|(_ & c' & e' & k & H1 & _)]; congruence.
      * destruct Hin as [Hin|Hin]; [simpl in Hin; congruence|].
        apply (Hp' p c e Hin); [|done]. rewrite Hfr by done. done.
Qed.

(** The iteration of the one phrase that occurs in [data] decides the
    call: the iterations before and after it leave its tracked state and
    the cooldown attributes alone. *)
Lemma loop_focus l1 p cfg l2 : forall w w' r,
  loop clock data (l1 ++ (p, cfg) :: l2) w = (w', r) ->
  matches p data = true ->
  (forall q, In q (phrases (l1 ++ l2)) -> matches q data = false) ->
  exists w1 w2,
    tracks w1 !! p = tracks w !! p /\
    delayed_check (self w1) = delayed_check (self w) /\
    delayed_trigger (self w1) = delayed_trigger (self w) /\
    loop_body clock data p cfg w1 = (w2, r) /\
    tracks w' !! p = tracks w2 !! p /\
    delayed_check (self w') = delayed_check (self w2) /\
    delayed_trigger (self w') = delayed_trigger (self w2).
Proof.
  intros w w' r H Hm Hno.
  assert (Hp : forall l, (forall q, In q (phrases l) -> matches q data = false)
                 -> ~ In p (phrases l)).
  { intros l Hl Hin. apply Hl in Hin. congruence. }
  assert (Hno1 : forall q, In q (phrases l1) -> matches q data = false).
  { intros q Hq. apply Hno. unfold phrases. rewrite map_app, in_app_iff. auto. }
  assert (Hno2 : forall q, In q (phrases l2) -> matches q data = false).
  { intros q Hq. apply Hno. unfold phrases. rewrite map_app, in_app_iff. auto. }
  clear Hno. revert w H.
  induction l1 as [|[q cq] l1 IH]; intros w H.
  - simpl app in H. rewrite loop_cons in H.
    destruct (loop_body clock data p cfg w) as [w1 r1] eqn:E.
    exists w, w1. destruct r1 as [[|]|e]; simplify_eq; try done.
    pose proof (loop_nomatch _ _ _ _ H Hno2) as (-> & _).
    pose proof (loop_frame _ _ _ _ H) as (_ & _ & _ & Hfr).
    apply loop_delayed in H as [D1 D2]; [|done].
    repeat split; try done. apply Hfr, Hp, Hno2.
  - simpl app in H. rewrite loop_cons in H.
    destruct (loop_body clock data q cq w) as [w0 r0] eqn:E.
    pose proof (loop_body_frame _ _ _ _ _ _ _ E) as (_ & _ & _ & Hfr).
    pose proof (loop_body_nomatch _ _ _ _ _ _ _ E) as (-> & _);
      [apply Hno1; simpl; auto|].
    apply loop_body_delayed in E as [D1 D2]; [|done].
    destruct (IH (fun q' Hq' => Hno1 q' (or_intror Hq')) _ H)
      as (w1 & w2 & H1 & H2 & H3 & H4 & H5 & H6 & H7).
    exists w1, w2. repeat split; try congruence.
    rewrite H1. apply Hfr. intros ->.
    apply (Hp _ Hno1). simpl. auto.
Qed.

(** A call that returned [True] was decided by some configured phrase,
    which is then the recorded one. *)
Lemma loop_fired items : forall w w',
  loop clock data items w = (w', Return true) ->
  exists p cfg,
    In (p, cfg) items /\ matches p data = true /\
    delayed_trigger (self w') = Some p /\
    exists c ex N T sl,
      tracks w' !! p = Some {| count := S (S c); expires := ex |} /\
      cfg !! "count" = Some N /\ N <= Z.of_nat (S (S c)) /\
      cfg !! "timeout" = Some T /\
      cfg !! "sleep" = Some sl /\ delayed_check (self w') = sl.
Proof.
  induction items as [|[q cq] items IH]; intros w w' H.
  - simpl in H. unfold ret in H. simplify_eq.
  - rewrite loop_cons in H.
    destruct (loop_body clock data q cq w) as [w1 [[|]|e]] eqn:E;
      simplify_eq.
    + apply loop_body_fired in E as (Hm & Hd & Hrest).
      exists q, cq. split; [left; done|]. done.
    + destruct (IH _ _ H) as (p & cfg & Hin & Hrest).
      exists p, cfg. split; [right; done|]. done.
Qed.

End Loop.

(** ** One call of [sync_logic] *)

Lemma sync_logic_loop clock data s s' r :
  sync_logic clock data s = (s', r) ->
  exists w', loop clock data (rclone_sleeps s) {| self := s; ticks := 0 |}
             = (w', r) /\ self w' = s'.
Proof.
  unfold sync_logic. intros H.
  destruct (loop clock data (rclone_sleeps s) _) as [w' r'] eqn:E.
  simplify_eq. eauto.
Qed.

Lemma sync_logic_sleeps clock data s s' r :
  sync_logic clock data s = (s', r) ->
  rclone_sleeps s' = rclone_sleeps s.
Proof.
  intros H. apply sync_logic_loop in H as (w' & H & <-).
  apply loop_frame in H as (-> & _). done.
Qed.

Lemma in_split_nodup (items : Sleeps) p cfg :
  In (p, cfg) items -> NoDup (phrases items) ->
  exists l1 l2 : Sleeps,
    items = (l1 ++ (p, cfg) :: l2)%list /\ ~ In p (phrases (l1 ++ l2)%list).
Proof.
  intros Hin Hnd. apply in_split in Hin as (l1 & l2 & ->).
  exists l1, l2. split; [done|].
  unfold phrases in *. rewrite map_app in *. simpl in Hnd.
  apply NoDup_app in Hnd as (_ & Hd & Hnd).
  apply NoDup_cons in Hnd as [Hp _].
  rewrite in_app_iff, <- !list_elem_of_In. intros [H1|H2]; [|done].
  apply (Hd _ H1). left.
Qed.

(** When [p] is the only configured phrase that occurs in [data], the call
    is the iteration of [p], run on the tracked state of [p] and the
    cooldown attributes as they were before the call. *)
Lemma sync_logic_focus clock data s s' r p cfg :
  sync_logic clock data s = (s', r) ->
  In (p, cfg) (rclone_sleeps s) ->
  NoDup (phrases (rclone_sleeps s)) ->
  matches p data = true ->
  only_match (rclone_sleeps s) p data ->
  exists w1 w2,
    tracks w1 !! p = trigger_tracks s !! p /\
    delayed_check (self w1) = delayed_check s /\
    delayed_trigger (self w1) = delayed_trigger s /\
    loop_body clock data p cfg w1 = (w2, r) /\
    trigger_tracks s' !! p = tracks w2 !! p /\
    delayed_check s' = delayed_check (self w2) /\
    delayed_trigger s' = delayed_trigger (self w2).
Proof.
  intros H Hin Hnd Hm Honly.
  apply sync_logic_loop in H as (w' & H & <-).
  destruct (in_split_nodup _ _ _ Hin Hnd) as (l1 & l2 & Heq & Hp).
  rewrite Heq in H. apply loop_focus in H; [exact H|exact Hm|].
  intros q Hq. apply Honly.
  - rewrite Heq. unfold phrases in *. rewrite map_app in *.
    rewrite in_app_iff in *. simpl. tauto.
  - intros ->. done.
Qed.

Section OneTrigger.

Variables (clock : Clock) (data : string).
Variables (s s' : RcloneSyncer) (r : outcome bool).
Variables (p : string) (N T sl : Z).

Hypothesis Hrun : sync_logic clock data s = (s', r).
Hypothesis Hcfg : configured s p N T sl.
Hypothesis Hm : matches p data = true.
Hypothesis Honly : only_match (rclone_sleeps s) p data.

Lemma sync_logic_configured : configured s' p N T sl.
Proof.
  unfold configured in *. rewrite (sync_logic_sleeps _ _ _ _ _ Hrun). done.
Qed.

Lemma sync_logic_init :
  can_open clock T ->
  restarts clock (trigger_tracks s !! p) ->
  r = Return false /\
  (exists k, trigger_tracks s' !! p
             = Some {| count := 1; expires := Some (clock k + T) |}) /\
  delayed_check s' = delayed_check s /\
  delayed_trigger s' = delayed_trigger s.
Proof.
  intros Hopen Hre. destruct Hcfg as (Hnd & cfg & Hin & HN & HT & Hsl).
  destruct (sync_logic_focus _ _ _ _ _ _ _ Hrun Hin Hnd Hm Honly)
    as (w1 & w2 & H1 & H2 & H3 & H4 & H5 & H6 & H7).
  rewrite <- H1 in Hre.
  destruct (loop_body_init _ _ _ _ _ _ _ _ H4 Hm HT Hopen Hre)
    as (-> & [k Hk] & D1 & D2).
  split; [done|]. split; [exists k; congruence|]. split; congruence.
Qed.

Lemma sync_logic_incr c ex :
  trigger_tracks s !! p = Some {| count := S c; expires := ex |} ->
  live clock (trigger_tracks s !! p) ->
  trigger_tracks s' !! p = Some {| count := S (S c); expires := ex |} /\
  if Z.of_nat (S (S c)) >=? N
  then r = Return true /\
       delayed_check s' = sl /\ delayed_trigger s' = Some p
  else r = Return false /\
       delayed_check s' = delayed_check s /\
       delayed_trigger s' = delayed_trigger s.
Proof.
  intros Htr Hlive. destruct Hcfg as (Hnd & cfg & Hin & HN & HT & Hsl).
  destruct (sync_logic_focus _ _ _ _ _ _ _ Hrun Hin Hnd Hm Honly)
    as (w1 & w2 & H1 & H2 & H3 & H4 & H5 & H6 & H7).
  rewrite <- H1 in Htr, Hlive.
  destruct (loop_body_incr _ _ _ _ _ _ _ _ _ _ _ _ H4 Hm HN HT Hsl Htr Hlive)
    as [Ht Hif].
  split; [congruence|].
  destruct (Z.of_nat (S (S c)) >=? N).
  - destruct Hif as (-> & D1 & D2). repeat split; congruence.
  - destruct Hif as (-> & D1 & D2). repeat split; congruence.
Qed.

End OneTrigger.

(** ** Sequences of calls *)

Section Feeding.

Variables (p : string) (N T sl : Z).

(** Occurrences inside the window that stay below the configured count
    only count up. *)
Lemma feed_count_up chunks : forall s c e,
  configured s p N T sl ->
  occurs_alone (rclone_sleeps s) p chunks ->
  before e chunks ->
  trigger_tracks s !! p = Some {| count := S c; expires := Some e |} ->
  Z.of_nat (S c) + Z.of_nat (length chunks) < N ->
  exists s',
    feed chunks s = (s', Return (repeat false (length chunks))) /\
    trigger_tracks s' !! p
      = Some {| count := S c + length chunks; expires := Some e |} /\
    delayed_check s' = delayed_check s /\
    delayed_trigger s' = delayed_trigger s /\
    rclone_sleeps s' = rclone_sleeps s.
Proof.
  induction chunks as [|[clk d] chunks IH]; intros s c e Hcfg Hoc Hbe Htr Hlt.
  - exists s. simpl. rewrite Nat.add_0_r. done.
  - apply Forall_cons in Hoc as [[Hm Honly] Hoc].
    apply Forall_cons in Hbe as [Hb Hbe]. simpl in Hm, Honly, Hb.
    simpl length in *. simpl feed.
    destruct (sync_logic clk d s) as [s1 r] eqn:E.
    assert (Hlive : live clk (trigger_tracks s !! p)).
    { intros t e' Ht He. rewrite Htr in Ht. simplify_eq. simpl in He.
      simplify_eq. exact Hb. }
    destruct (sync_logic_incr _ _ _ _ _ _ _ _ _ E Hcfg Hm Honly _ _ Htr Hlive)
      as [Htr1 Hif].
    destruct (Z.of_nat (S (S c)) >=? N) eqn:Hge; [geb_to_prop; lia|].
    destruct Hif as (-> & D1 & D2).
    pose proof (sync_logic_sleeps _ _ _ _ _ E) as Hsl.
    destruct (IH s1 (S c) e) as (s2 & F & Htr2 & D3 & D4 & Hsl2).
    + eapply sync_logic_configured; eauto.
    + rewrite Hsl. exact Hoc.
    + exact Hbe.
    + exact Htr1.
    + lia.
    + exists s2. rewrite F. split; [done|].
      split; [rewrite Htr2; do 2 f_equal; lia|].
      repeat split; congruence.
Qed.

(** The occurrence inside the window that brings the count to the
    configured one makes the call return [True], and none before it. *)
Lemma feed_fire chunks : forall s c e,
  configured s p N T sl ->
  occurs_alone (rclone_sleeps s) p chunks ->
  before e chunks ->
  trigger_tracks s !! p = Some {| count := S c; expires := Some e |} ->
  chunks <> [] ->
  Z.of_nat (S c) + Z.of_nat (length chunks) = N ->
  exists s',
    feed chunks s
      = (s', Return (repeat false (length chunks - 1) ++ [true])%list) /\
    delayed_check s' = sl /\
    delayed_trigger s' = Some p.
Proof.
  induction chunks as [|[clk d] chunks IH];
    intros s c e Hcfg Hoc Hbe Htr Hne Hlen; [done|].
  apply Forall_cons in Hoc as [[Hm Honly] Hoc].
  apply Forall_cons in Hbe as [Hb Hbe]. simpl in Hm, Honly, Hb.
  simpl length in *. simpl feed.
  destruct (sync_logic clk d s) as [s1 r] eqn:E.
  assert (Hlive : live clk (trigger_tracks s !! p)).
  { intros t e' Ht He. rewrite Htr in Ht. simplify_eq. simpl in He.
    simplify_eq. exact Hb. }
  destruct (sync_logic_incr _ _ _ _ _ _ _ _ _ E Hcfg Hm Honly _ _ Htr Hlive)
    as [Htr1 Hif].
  destruct chunks as [|ch chunks].
  - destruct (Z.of_nat (S (S c)) >=? N) eqn:Hge;
      [|geb_to_prop; simpl in Hlen; lia].
    destruct Hif as (-> & D1 & D2). exists s1. simpl. done.
  - destruct (Z.of_nat (S (S c)) >=? N) eqn:Hge;
      [geb_to_prop; simpl length in Hlen; lia|].
    destruct Hif as (-> & D1 & D2).
    pose proof (sync_logic_sleeps _ _ _ _ _ E) as Hsl.
    destruct (IH s1 (S c) e) as (s2 & F & D3 & D4).
    + eapply sync_logic_configured; eauto.
    + rewrite Hsl. exact Hoc.
    + exact Hbe.
    + exact Htr1.
    + done.
    + simpl length in *. lia.
    + exists s2. rewrite F. simpl length. simpl.
      rewrite Nat.sub_0_r. done.
Qed.

Lemma untracked_restarts clock o : untracked o -> restarts clock o.
Proof. destruct o as [[[|c] e]|]; simpl; try done. Qed.

(** From an untracked phrase: the first occurrence opens the window and
    the following ones count up, while the count stays below the configured
    one. *)
Lemma feed_fresh_count_up chunks s :
  configured s p N T sl ->
  untracked (trigger_tracks s !! p) ->
  occurs_alone (rclone_sleeps s) p chunks ->
  first_can_open T chunks ->
  in_window T chunks ->
  Z.of_nat (length chunks) < N ->
  exists s',
    feed chunks s = (s', Return (repeat false (length chunks))) /\
    delayed_check s' = delayed_check s /\
    delayed_trigger s' = delayed_trigger s /\
    rclone_sleeps s' = rclone_sleeps s /\
    (chunks = [] /\ s' = s \/
     exists e, trigger_tracks s' !! p
               = Some {| count := length chunks; expires := Some e |}).
Proof.
  intros Hcfg Hun Hoc Hopen Hwin Hlt.
  destruct chunks as [|[c1 d1] rest].
  - exists s. simpl. repeat split; auto.
  - apply Forall_cons in Hoc as [[Hm Honly] Hoc]. simpl in Hm, Honly.
    simpl length in *. simpl feed. simpl in Hopen.
    destruct (sync_logic c1 d1 s) as [s1 r] eqn:E.
    destruct (sync_logic_init _ _ _ _ _ _ _ _ _ E Hcfg Hm Honly Hopen
                (untracked_restarts _ _ Hun)) as (-> & [k Hk] & D1 & D2).
    pose proof (sync_logic_sleeps _ _ _ _ _ E) as Hsl.
    destruct (feed_count_up rest s1 0%nat (c1 k + T))
      as (s2 & F & Htr & D3 & D4 & Hsl2).
    + eapply sync_logic_configured; eauto.
    + rewrite Hsl. exact Hoc.
    + apply Forall_forall. intros ch Hin j. apply Hwin.
      apply list_elem_of_In. exact Hin.
    + exact Hk.
    + lia.
    + exists s2. rewrite F. repeat split; try congruence.
      right. exists (c1 k + T). exact Htr.
Qed.

(** From an untracked phrase with a configured count of at least 2: the
    call on the occurrence that completes the count returns [True], the
    calls before it return [False]. *)
Lemma feed_fresh_fire chunks s :
  configured s p N T sl ->
  2 <= N ->
  untracked (trigger_tracks s !! p) ->
  occurs_alone (rclone_sleeps s) p chunks ->
  first_can_open T chunks ->
  in_window T chunks ->
  Z.of_nat (length chunks) = N ->
  exists s',
    feed chunks s
      = (s', Return (repeat false (length chunks - 1) ++ [true])%list) /\
    delayed_check s' = sl /\
    delayed_trigger s' = Some p.
Proof.
  intros Hcfg HN Hun Hoc Hopen Hwin Hlen.
  destruct chunks as [|[c1 d1] rest]; [simpl in Hlen; lia|].
  apply Forall_cons in Hoc as [[Hm Honly] Hoc]. simpl in Hm, Honly.
  simpl length in *. simpl feed. simpl in Hopen.
  destruct (sync_logic c1 d1 s) as [s1 r] eqn:E.
  destruct (sync_logic_init _ _ _ _ _ _ _ _ _ E Hcfg Hm Honly Hopen
              (untracked_restarts _ _ Hun)) as (-> & [k Hk] & D1 & D2).
  pose proof (sync_logic_sleeps _ _ _ _ _ E) as Hsl.
  destruct (feed_fire rest s1 0%nat (c1 k + T)) as (s2 & F & D3 & D4).
  - eapply sync_logic_configured; eauto.
  - rewrite Hsl. exact Hoc.
  - apply Forall_forall. intros ch Hin j. apply Hwin.
    apply list_elem_of_In. exact Hin.
  - exact Hk.
  - destruct rest; [simpl in Hlen; lia|done].
  - lia.
  - exists s2. rewrite F. split; [|done].
    destruct rest as [|ch rest]; [simpl in Hlen; lia|].
    simpl length. simpl. rewrite Nat.sub_0_r. done.
Qed.

End Feeding.

(** ** Facts about the concrete configurations *)

Lemma trigger_config_ok n t sl : config_ok (trigger_config n t sl).
Proof. unfold config_ok, trigger_config. repeat split; by eexists. Qed.

Lemma configured_single p n t sl :
  configured (new_syncer [(p, trigger_config n t sl)]) p n t sl.
Proof.
  split.
  - apply NoDup_singleton.
  - exists (trigger_config n t sl). repeat split; simpl; auto.
Defined.

Lemma only_match_single p cfg data : only_match [(p, cfg)] p data.
Proof. intros q [Hq|[]] Hne. simpl in Hq. congruence. Defined.

(** A timeout from 0 to a day gives a window that can be opened at every
    clock. *)
Lemma can_open_short (clock : Clock) T : 0 <= T <= 86400 -> can_open clock T.
Proof.
  intros HT. split.
  - unfold float_of_int.
    assert (Hb : (131072 <=? 2 ^ 1024 - 2 ^ 970)%Z = true)
      by (vm_compute; reflexivity).
    apply Z.leb_le in Hb.
    destruct (Z.ltb_spec (Z.abs T) (2 ^ 1024 - 2 ^ 970)); [reflexivity|lia].
  - intros k. apply formats_near_now. exact HT.
Qed.

(** ** The claims *)

(** C1 (as amended).  For a configured trigger with count [N >= 2] that is
    not being tracked and whose window can be opened, [N] chunks that
    contain its phrase (and no other configured phrase), all within one
    timeout window, make the calls return [False] on the first [N - 1] and
    [True] on the [N]-th, which records the trigger's sleep and phrase. *)
Theorem fires_on_nth_occurrence s p N T sl chunks :
  configured s p N T sl ->
  2 <= N ->
  untracked (trigger_tracks s !! p) ->
  occurs_alone (rclone_sleeps s) p chunks ->
  first_can_open T chunks ->
  in_window T chunks ->
  length chunks = Z.to_nat N ->
  exists s',
    feed chunks s
      = (s', Return (repeat false (Z.to_nat N - 1) ++ [true])%list) /\
    delayed_check s' = sl /\
    delayed_trigger s' = Some p.
Proof.
  intros Hcfg HN Hun Hoc Hopen Hwin Hlen.
  rewrite <- Hlen. eapply feed_fresh_fire; eauto. lia.
Qed.

(** C1, the claim as stated fails.  With count = 1 the first occurrence of
    the phrase only opens the window and the call returns [False]; it is the
    second occurrence that returns [True].  With a timeout whose expiry
    cannot be formatted the first call raises.  And with another configured
    phrase in the text, that other trigger can be the one that fires, before
    the [N]-th occurrence. *)
Lemma count_one_needs_two_occurrences :
  let call := (steady 0, "x") in
  (let s := new_syncer [("x", trigger_config 1 60 5)] in
   configured s "x" 1 60 5 /\
   matches "x" "x" = true /\
   snd (feed [call] s) = Return [false] /\
   snd (feed [call; call] s) = Return [false; true]) /\
  (let s := new_syncer [("x", trigger_config 2 (10 ^ 20) 5)] in
   snd (sync_logic (steady 0) "x" s) = Raise OverflowError) /\
  (let s := new_syncer [("x", trigger_config 2 60 5);
                        ("x y", trigger_config 3 60 5)] in
   let both := (steady 0, "x y") in
   matches "x y" "x y" = true /\
   snd (feed [both; both] s) = Return [false; true] /\
   delayed_trigger (fst (feed [both; both] s)) = Some "x").
Proof.
  split; [split; [apply configured_single|vm_compute; auto]|].
  vm_compute. auto.
Qed.

Lemma fires_on_nth_occurrence_witness :
  let s := new_syncer [("rate limit", trigger_config 3 60 300)] in
  let chunks := [(steady 0, "rate limit");
                 (steady 5, "Rate Limit");
                 (steady 10, "RATE LIMIT")] in
  exists s',
    feed chunks s
      = (s', Return (repeat false (Z.to_nat 3 - 1) ++ [true])%list) /\
    delayed_check s' = 300 /\
    delayed_trigger s' = Some "rate limit".
Proof.
  intros s chunks.
  apply (fires_on_nth_occurrence s "rate limit" 3 60 300 chunks).
  - apply configured_single.
  - lia.
  - exact I.
  - repeat constructor; apply only_match_single.
  - apply can_open_short. lia.
  - intros ch [<-|[<-|[]]] k k'; vm_compute; reflexivity.
  - reflexivity.
Defined.

(** C2 (as amended).  [__init__] performs no validation of the merged
    configuration: whatever [misc.merge_dicts] does, when both endpoint
    configurations carry ['rclone_sleeps'] and the merge returns,
    construction succeeds and keeps what the merge returned as it is, with
    nothing tracked and no cooldown; and construction raises only what the
    merge raises. *)
Theorem init_performs_no_validation merge from_remote to_remote kwargs a b :
  remote_rclone_sleeps from_remote = Some a ->
  remote_rclone_sleeps to_remote = Some b ->
  (forall merged,
     merge a b = Return merged ->
     exists s,
       init_with merge from_remote to_remote kwargs = Return s /\
       rclone_sleeps s = merged /\
       trigger_tracks s = ∅ /\
       delayed_check s = 0 /\
       delayed_trigger s = None) /\
  (forall e,
     init_with merge from_remote to_remote kwargs = Raise e ->
     merge a b = Raise e).
Proof.
  intros Ha Hb. unfold init_with, remote_getitem_rclone_sleeps.
  rewrite Ha, Hb. split.
  - intros merged ->. eexists. split; [reflexivity|]. simpl. done.
  - intros e. destruct (merge a b); [discriminate|]. congruence.
Qed.

(** C2, the claim as stated fails: a configuration with count 0 and a
    negative timeout is accepted by the constructor; and a timeout that
    cannot be handled is met only by the call that opens a window with
    it, which raises. *)
Lemma init_accepts_nonpositive_config :
  (let bad := [("x", trigger_config 0 (-5) 1)] in
   __init__ {| remote_rclone_sleeps := Some bad |}
            {| remote_rclone_sleeps := Some [] |} no_kwargs
   = Return (new_syncer bad)) /\
  (let worse := [("x", trigger_config 0 (- 10 ^ 20) 1)] in
   __init__ {| remote_rclone_sleeps := Some worse |}
            {| remote_rclone_sleeps := Some [] |} no_kwargs
   = Return (new_syncer worse) /\
   snd (sync_logic (steady 0) "x" (new_syncer worse)) = Raise OverflowError).
Proof. vm_compute. auto. Qed.

Lemma init_performs_no_validation_witness :
  let bad := [("x", trigger_config 0 (-5) 1)] in
  exists s,
    __init__ {| remote_rclone_sleeps := Some bad |}
             {| remote_rclone_sleeps := Some [] |} no_kwargs = Return s /\
    rclone_sleeps s = bad /\
    trigger_tracks s = ∅ /\
    delayed_check s = 0 /\
    delayed_trigger s = None.
Proof.
  intros bad.
  apply (init_performs_no_validation
           (fun a b => Return (misc.merge_dicts a b))
           {| remote_rclone_sleeps := Some bad |}
           {| remote_rclone_sleeps := Some [] |} no_kwargs bad []);
    reflexivity.
Defined.

(** C3 (as amended).  A call with text in which no configured phrase
    occurs returns [False] and leaves every tracked state as it was, except
    that the lazy expiry still runs: the state of a configured phrase whose
    expiry is set and reached by the clock is reset to count 0 with no
    expiry.  When no expiry is reached the whole map is unchanged. *)
Theorem nonmatching_text_only_expires clock data s s' r :
  sync_logic clock data s = (s', r) ->
  (forall q, In q (phrases (rclone_sleeps s)) -> matches q data = false) ->
  r = Return false /\
  (forall p,
     trigger_tracks s' !! p = trigger_tracks s !! p \/
     In p (phrases (rclone_sleeps s)) /\
     exists c e k,
       trigger_tracks s !! p = Some {| count := c; expires := Some e |} /\
       e <= clock k /\
       trigger_tracks s' !! p = Some {| count := 0; expires := None |}) /\
  (forall p c e,
     In p (phrases (rclone_sleeps s)) ->
     trigger_tracks s !! p = Some {| count := c; expires := Some e |} ->
     (forall k, e <= clock k) ->
     trigger_tracks s' !! p = Some {| count := 0; expires := None |}) /\
  ((forall p, live clock (trigger_tracks s !! p)) ->
   trigger_tracks s' = trigger_tracks s).
Proof.
  intros H Hno. apply sync_logic_loop in H as (w' & H & <-).
  apply loop_nomatch in H as (-> & Hp & Hp'); [|exact Hno].
  simpl in Hp, Hp'. repeat split; try done.
  intros Hlive. apply map_eq. intros p.
  destruct (Hp p) as [Hs|(_ & c & e & k & H1 & H2 & _)]; [done|].
  specialize (Hlive p _ e H1 eq_refl k). lia.
Qed.

(** C3, the claim as stated fails: a tracked state whose expiry has passed
    is reset by a call whose text contains no configured phrase. *)
Lemma nonmatching_text_resets_expired :
  let s := {| rclone_sleeps := [("x", trigger_config 3 60 5)];
              trigger_tracks := {["x" := {| count := 1; expires := Some 10 |}]};
              delayed_check := 0;
              delayed_trigger := None;
              rclone_extras := [];
              dry_run := false |} in
  let s' := fst (sync_logic (steady 20) "" s) in
  matches "x" "" = false /\
  trigger_tracks s !! "x" = Some {| count := 1; expires := Some 10 |} /\
  trigger_tracks s' !! "x" = Some {| count := 0; expires := None |}.
Proof. vm_compute. auto. Qed.

Lemma nonmatching_text_only_expires_witness :
  let s := {| rclone_sleeps := [("x", trigger_config 3 60 5)];
              trigger_tracks := {["x" := {| count := 1; expires := Some 10 |}]};
              delayed_check := 0;
              delayed_trigger := None;
              rclone_extras := [];
              dry_run := false |} in
  snd (sync_logic (steady 20) "" s) = Return false.
Proof.
  intros s.
  destruct (sync_logic (steady 20) "" s) as [s' r] eqn:E.
  apply (nonmatching_text_only_expires (steady 20) "" s s' r E).
  intros q [<-|[]]. reflexivity.
Defined.

(** C4 (as amended).  For a configured trigger with count [N] that is not
    being tracked, whose window can be opened at the first chunk: [N - 1]
    chunks in which its phrase occurs and no other configured phrase does,
    all within one timeout window, do not make a call return [True]; and
    one more call, on text in which again only this phrase occurs, made
    when the clock has reached the stored expiry and the window can be
    opened, does not either: the expired state is reset and the occurrence
    opens a new window, with the count at 1. *)
Theorem lapsed_window_starts_over s p N T sl chunks s1 r1 :
  configured s p N T sl ->
  1 <= N ->
  untracked (trigger_tracks s !! p) ->
  occurs_alone (rclone_sleeps s) p chunks ->
  first_can_open T chunks ->
  in_window T chunks ->
  length chunks = Z.to_nat (N - 1) ->
  feed chunks s = (s1, r1) ->
  r1 = Return (repeat false (length chunks)) /\
  forall (clock : Clock) data s2 r2,
    matches p data = true ->
    only_match (rclone_sleeps s) p data ->
    can_open clock T ->
    (forall t e, trigger_tracks s1 !! p = Some t -> expires t = Some e ->
                 forall k, e <= clock k) ->
    sync_logic clock data s1 = (s2, r2) ->
    r2 = Return false /\
    exists k, trigger_tracks s2 !! p
              = Some {| count := 1; expires := Some (clock k + T) |}.
Proof.
  intros Hcfg HN Hun Hoc Hopen Hwin Hlen Hfeed.
  destruct (feed_fresh_count_up p N T sl chunks s Hcfg Hun Hoc Hopen Hwin)
    as (s' & F & D1 & D2 & Hsl & Hentry); [lia|].
  rewrite F in Hfeed. simplify_eq. split; [done|].
  intros clock data s2 r2 Hm Honly Hcan Hexp Hrun.
  assert (Hcfg1 : configured s1 p N T sl).
  { unfold configured in *. rewrite Hsl. exact Hcfg. }
  rewrite <- Hsl in Honly.
  assert (Hre : restarts clock (trigger_tracks s1 !! p)).
  { destruct Hentry as [[_ ->]|[e He]].
    - apply untracked_restarts, Hun.
    - rewrite He. simpl. destruct (length chunks); [done|].
      apply (Hexp _ e He eq_refl). }
  destruct (sync_logic_init _ _ _ _ _ _ _ _ _ Hrun Hcfg1 Hm Honly Hcan Hre)
    as (-> & Hk & _). done.
Qed.

(** C4, the claim as stated fails when another configured phrase occurs in
    the text: with ["x"] (count 3, timeout 1000) configured before ["x y"]
    (count 3, timeout 60) on a new object, ["x y"] is fed twice within its
    window and once more past its expiry; that call returns [True], for
    ["x"], and the state of ["x y"] is neither reset nor at count 1. *)
Lemma lapsed_window_other_trigger_fires :
  let s := new_syncer [("x", trigger_config 3 1000 5);
                       ("x y", trigger_config 3 60 300)] in
  let chunks := [(steady 0, "x y"); (steady 5, "x y")] in
  let s1 := fst (feed chunks s) in
  let s2 := fst (sync_logic (steady 61) "x y" s1) in
  snd (feed chunks s) = Return [false; false] /\
  trigger_tracks s1 !! "x y" = Some {| count := 2; expires := Some 60 |} /\
  snd (sync_logic (steady 61) "x y" s1) = Return true /\
  delayed_trigger s2 = Some "x" /\
  trigger_tracks s2 !! "x y" = Some {| count := 2; expires := Some 60 |}.
Proof. vm_compute. auto. Qed.

Lemma lapsed_window_starts_over_witness :
  let s := new_syncer [("rate limit", trigger_config 3 60 300)] in
  let chunks := [(steady 0, "rate limit"); (steady 5, "rate limit")] in
  snd (feed chunks s) = Return (repeat false (length chunks)) /\
  snd (sync_logic (steady 61) "rate limit" (fst (feed chunks s)))
  = Return false.
Proof.
  intros s chunks.
  destruct (feed chunks s) as [s1 r1] eqn:F.
  destruct (lapsed_window_starts_over s "rate limit" 3 60 300 chunks s1 r1)
    as [H1 H2].
  - apply configured_single.
  - lia.
  - exact I.
  - repeat constructor; apply only_match_single.
  - apply can_open_short. lia.
  - intros ch [<-|[]] k k'; vm_compute; reflexivity.
  - reflexivity.
  - exact F.
  - split; [exact H1|]. simpl fst.
    destruct (sync_logic (steady 61) "rate limit" s1) as [s2 r2] eqn:E.
    apply (H2 (steady 61) "rate limit" s2 r2).
    + reflexivity.
    + apply only_match_single.
    + apply can_open_short. lia.
    + intros t e Ht He k. vm_compute in F. simplify_eq.
      vm_compute in Ht. simplify_eq. simpl in He. simplify_eq.
      vm_compute. discriminate.
    + exact E.
Defined.

Section Scenario.

Implicit Types c : Clock.

(** C5.  The trigger ["rate limit"] with count 3, timeout 60 and sleep 300,
    on a newly constructed object: three calls made within 10 seconds, each
    with text that contains ["rate limit"], return [False], [False] and
    [True], and the third records the phrase and a cooldown of 300. *)
Theorem rate_limit_scenario c1 c2 c3 d1 d2 d3 t0 :
  (forall k, t0 <= c1 k <= t0 + 10) ->
  (forall k, t0 <= c2 k <= t0 + 10) ->
  (forall k, t0 <= c3 k <= t0 + 10) ->
  (exists l r, d1 = l ++ "rate limit" ++ r) ->
  (exists l r, d2 = l ++ "rate limit" ++ r) ->
  (exists l r, d3 = l ++ "rate limit" ++ r) ->
  exists s0 s1 s2 s3,
    __init__ {| remote_rclone_sleeps :=
                  Some [("rate limit", trigger_config 3 60 300)] |}
             {| remote_rclone_sleeps := Some [] |} no_kwargs = Return s0 /\
    sync_logic c1 d1 s0 = (s1, Return false) /\
    sync_logic c2 d2 s1 = (s2, Return false) /\
    sync_logic c3 d3 s2 = (s3, Return true) /\
    delayed_trigger s3 = Some "rate limit" /\
    delayed_check s3 = 300.
Proof.
  intros H1 H2 H3 (l1 & r1 & ->) (l2 & r2 & ->) (l3 & r3 & ->).
  set (s0 := new_syncer [("rate limit", trigger_config 3 60 300)]).
  destruct (feed_fresh_fire "rate limit" 3 60 300
              [(c1, l1 ++ "rate limit" ++ r1);
               (c2, l2 ++ "rate limit" ++ r2);
               (c3, l3 ++ "rate limit" ++ r3)] s0)
    as (s3 & F & D1 & D2).
  - apply configured_single.
  - lia.
  - exact I.
  - repeat constructor; simpl;
      (apply matches_literal || apply only_match_single).
  - apply can_open_short. lia.
  - intros ch [<-|[<-|[]]] k k'; simpl.
    + specialize (H1 k'). specialize (H2 k). lia.
    + specialize (H1 k'). specialize (H3 k). lia.
  - reflexivity.
  - simpl in F.
    destruct (sync_logic c1 _ s0) as [s1 [b1|e1]] eqn:E1; [|done].
    destruct (sync_logic c2 _ s1) as [s2 [b2|e2]] eqn:E2; [|done].
    destruct (sync_logic c3 _ s2) as [s3' [b3|e3]] eqn:E3; [|done].
    simplify_eq. exists s0, s1, s2, s3. done.
Qed.

End Scenario.

Lemma rate_limit_scenario_witness :
  exists s0 s1 s2 s3,
    __init__ {| remote_rclone_sleeps :=
                  Some [("rate limit", trigger_config 3 60 300)] |}
             {| remote_rclone_sleeps := Some [] |} no_kwargs = Return s0 /\
    sync_logic (steady 100) "ERROR: rate limit exceeded" s0
      = (s1, Return false) /\
    sync_logic (steady 104) "... rate limit ..." s1 = (s2, Return false) /\
    sync_logic (steady 109) "rate limit" s2 = (s3, Return true) /\
    delayed_trigger s3 = Some "rate limit" /\
    delayed_check s3 = 300.
Proof.
  apply (rate_limit_scenario _ _ _ _ _ _ 100).
  - intros k. vm_compute. split; discriminate.
  - intros k. vm_compute. split; discriminate.
  - intros k. vm_compute. split; discriminate.
  - exists "ERROR: ", " exceeded". reflexivity.
  - exists "... ", " ...". reflexivity.
  - exists "", "". reflexivity.
Defined.

(** C6.  Every call preserves the invariant of the tracked states: if in
    every entry of the map the count is 0 exactly when the expiry is unset,
    the same holds of every entry after the call, whether the call returned
    or raised. *)
Theorem sync_logic_preserves_track_inv clock data s s' r :
  sync_logic clock data s = (s', r) ->
  tracks_inv (trigger_tracks s) ->
  tracks_inv (trigger_tracks s').
Proof.
  intros H Hinv. apply sync_logic_loop in H as (w' & H & <-).
  eapply loop_inv; eauto.
Qed.

Lemma sync_logic_preserves_track_inv_witness :
  let s := {| rclone_sleeps := [("x", trigger_config 3 60 5)];
              trigger_tracks := {["x" := {| count := 1; expires := Some 10 |}]};
              delayed_check := 0;
              delayed_trigger := None;
              rclone_extras := [];
              dry_run := false |} in
  tracks_inv (trigger_tracks s) /\
  tracks_inv (trigger_tracks (fst (sync_logic (steady 7) "x x" s))).
Proof.
  intros s.
  assert (Hinv : tracks_inv (trigger_tracks s)).
  { intros k t Hk. simpl in Hk. apply lookup_singleton_Some in Hk as [_ <-].
    split; discriminate. }
  split; [exact Hinv|].
  destruct (sync_logic (steady 7) "x x" s) as [s' r] eqn:E.
  exact (sync_logic_preserves_track_inv _ _ _ _ _ E Hinv).
Defined.




(** ** Facts about lowercasing and occurrence *)

Module CaseFacts.
Import Str.

(** A property of characters that holds of the 256 of them. *)
Lemma all_ascii (P : ascii -> bool) :
  forallb P (map ascii_of_nat (seq 0 256)) = true -> forall c, P c = true.
Proof.
  intros H c. rewrite forallb_forall in H. apply H.
  rewrite <- (ascii_nat_embedding c). apply in_map. apply in_seq.
  pose proof (nat_ascii_bounded c). lia.
Qed.

(** Two characters have the same lowercase exactly when they are the same
    letter. *)
Lemma lower_char_same_letter (a b : ascii) :
  Ascii.eqb (lower_char a) (lower_char b) = same_letter a b.
Proof.
  assert (H : forall a, forallb (fun b => Bool.eqb
                (Ascii.eqb (lower_char a) (lower_char b)) (same_letter a b))
                (map ascii_of_nat (seq 0 256)) = true).
  { apply (all_ascii (fun a => forallb (fun b => Bool.eqb
             (Ascii.eqb (lower_char a) (lower_char b)) (same_letter a b))
             (map ascii_of_nat (seq 0 256)))).
    vm_compute. reflexivity. }
  apply Bool.eqb_prop.
  apply (all_ascii (fun b => Bool.eqb
           (Ascii.eqb (lower_char a) (lower_char b)) (same_letter a b))).
  apply H.
Qed.

Lemma lower_same_letters (a : string) :
  forall b, lower a = lower b <-> same_letters a b = true.
Proof.
  induction a as [|x a IH]; intros [|y b]; simpl; try (split; done).
  rewrite andb_true_iff, <- IH, <- lower_char_same_letter. split.
  - intros H. injection H as H1 H2. split; [|done].
    rewrite H1. apply Ascii.eqb_refl.
  - intros [H1 H2]. apply Ascii.eqb_eq in H1. congruence.
Qed.

(** The lowercase of a text splits where the text does. *)
Lemma lower_split (a : string) :
  forall s b, lower s = a ++ b ->
  exists s1 s2, s = s1 ++ s2 /\ lower s1 = a /\ lower s2 = b.
Proof.
  induction a as [|x a IH]; intros s b H.
  - exists "", s. done.
  - rewrite StrFacts.app_cons in H. destruct s as [|c s]; [done|].
    simpl in H. injection H as Hc H.
    destruct (IH _ _ H) as (s1 & s2 & -> & H1 & H2).
    exists (String c s1), s2. simpl. rewrite H1, Hc. done.
Qed.

End CaseFacts.

(** The phrase matches exactly when a part of the text has the same
    letters. *)
Lemma matches_same_letters (p data : string) :
  matches p data = true <->
  exists l m r, data = l ++ m ++ r /\ same_letters m p = true.
Proof.
  rewrite matches_iff. split.
  - intros (l & r & H).
    apply CaseFacts.lower_split in H as (s1 & s2 & -> & H1 & H).
    apply CaseFacts.lower_split in H as (m & s3 & -> & H2 & H3).
    exists s1, m, s3. split; [done|].
    apply CaseFacts.lower_same_letters. exact H2.
  - intros (l & m & r & -> & H).
    apply CaseFacts.lower_same_letters in H.
    exists (Str.lower l), (Str.lower r).
    rewrite !StrFacts.lower_app, H. done.
Qed.

Module UnicodeFacts.
Import Unicode.

Lemma prefix_starts (p r : list N) : startswith p (p ++ r)%list = true.
Proof.
  induction p as [|a p IH]; [reflexivity|].
  simpl. now rewrite N.eqb_refl.
Qed.

Lemma starts_prefix (p : list N) :
  forall s, startswith p s = true -> exists r, s = (p ++ r)%list.
Proof.
  induction p as [|a p IH]; intros s H.
  - exists s. reflexivity.
  - destruct s as [|b s]; simpl in H; [discriminate|].
    destruct (N.eqb_spec a b) as [->|]; [|discriminate].
    destruct (IH _ H) as [r ->]. exists r. reflexivity.
Qed.

Lemma infix_contained (sub : list N) :
  forall l r, contains sub (l ++ sub ++ r)%list = true.
Proof.
  induction l as [|c l IH]; intros r.
  - simpl app. pose proof (prefix_starts sub r) as H.
    destruct (sub ++ r)%list; simpl; rewrite H; reflexivity.
  - simpl. rewrite IH. apply orb_true_r.
Qed.

Lemma contained_infix (sub : list N) :
  forall s, contains sub s = true ->
            exists l r, s = (l ++ sub ++ r)%list.
Proof.
  induction s as [|c s IH]; simpl; intros H.
  - rewrite orb_false_r in H. apply starts_prefix in H as [r Hr].
    exists [], r. exact Hr.
  - apply orb_true_iff in H as [H|H].
    + apply starts_prefix in H as [r Hr]. exists [], r. exact Hr.
    + destruct (IH H) as (l & r & ->). exists (c :: l), r. reflexivity.
Qed.

Section Lowering.

Variable U : UCD.

(** What comes after a part of the text is lowered after the lowering of
    that part. *)
Lemma lower_from_app (x : list N) :
  forall before y,
    exists x', lower_from U before (x ++ y)%list
               = (x' ++ lower_from U (rev x ++ before) y)%list.
Proof.
  induction x as [|c x IH]; intros before y.
  - exists []. reflexivity.
  - destruct (IH (c :: before) y) as [x' Hx']. simpl.
    rewrite Hx', <- app_assoc. simpl.
    eexists. rewrite app_assoc. reflexivity.
Qed.

(** A text without capital sigma is lowered character by character,
    whatever is around it. *)
Lemma lower_from_plain (x : list N) :
  ~ In capital_sigma x ->
  forall before y,
    lower_from U before (x ++ y)%list
    = (flat_map (to_lower_full U) x
       ++ lower_from U (rev x ++ before) y)%list.
Proof.
  induction x as [|c x IH]; intros Hno before y; [reflexivity|].
  simpl. destruct (N.eqb_spec c capital_sigma) as [->|_].
  - exfalso. apply Hno. left. reflexivity.
  - rewrite IH, <- !app_assoc; [reflexivity|].
    intros Hin. apply Hno. right. exact Hin.
Qed.

Lemma lower_plain (x : list N) :
  ~ In capital_sigma x -> lower U x = flat_map (to_lower_full U) x.
Proof.
  intros Hno. unfold lower.
  rewrite <- (app_nil_r x) at 1. rewrite lower_from_plain by exact Hno.
  simpl. apply app_nil_r.
Qed.

(** A phrase without capital sigma that occurs in the text matches. *)
Lemma matches_plain_literal (p l r : list N) :
  ~ In capital_sigma p -> matches U p (l ++ p ++ r)%list = true.
Proof.
  intros Hno. unfold matches. rewrite (lower_plain p Hno). unfold lower.
  destruct (lower_from_app l [] (p ++ r)%list) as [l' ->].
  rewrite lower_from_plain by exact Hno.
  apply infix_contained.
Qed.

End Lowering.

Lemma of_string_plain (s : string) : ~ In capital_sigma (of_string s).
Proof.
  induction s as [|c s IH]; simpl; [tauto|].
  intros [H|H]; [|tauto].
  pose proof (N_ascii_bounded c) as Hb. rewrite H in Hb.
  unfold capital_sigma in Hb. lia.
Qed.

Lemma of_string_lower (U : UCD) (s : string) :
  latin1_rows U -> lower U (of_string s) = of_string (Str.lower s).
Proof.
  intros HU. rewrite lower_plain by apply of_string_plain.
  induction s as [|c s IH]; [reflexivity|].
  simpl. rewrite HU, IH. reflexivity.
Qed.

Lemma of_char_eqb (a b : ascii) :
  N.eqb (N_of_ascii a) (N_of_ascii b) = Ascii.eqb a b.
Proof.
  destruct (Ascii.eqb_spec a b) as [->|Hne].
  - apply N.eqb_refl.
  - apply N.eqb_neq. intros H. apply Hne.
    rewrite <- (ascii_N_embedding a), <- (ascii_N_embedding b), H.
    reflexivity.
Qed.

Lemma of_string_startswith (p : string) :
  forall s, startswith (of_string p) (of_string s) = Str.startswith p s.
Proof.
  induction p as [|a p IH]; intros [|b s]; simpl; try reflexivity.
  rewrite of_char_eqb, IH. reflexivity.
Qed.

Lemma of_string_contains (p s : string) :
  contains (of_string p) (of_string s) = Str.contains p s.
Proof.
  induction s as [|b s IH].
  - pose proof (of_string_startswith p "") as H. simpl in *.
    rewrite H. reflexivity.
  - pose proof (of_string_startswith p (String b s)) as H. simpl in *.
    rewrite H, IH. reflexivity.
Qed.

Lemma rows_latin1 : latin1_rows rows.
Proof.
  intros c. simpl.
  pose proof (N_ascii_bounded c) as Hb.
  destruct (N.ltb_spec (N_of_ascii c) 256) as [_|Hge]; [|lia].
  rewrite ascii_N_embedding. reflexivity.
Qed.

End UnicodeFacts.

(** On text of code points below 256 the test is that of [matches]. *)
Lemma of_string_matches (U : Unicode.UCD) (p data : string) :
  Unicode.latin1_rows U ->
  Unicode.matches U (Unicode.of_string p) (Unicode.of_string data)
  = matches p data.
Proof.
  intros HU. unfold matches, Unicode.matches.
  rewrite !UnicodeFacts.of_string_lower by exact HU.
  apply UnicodeFacts.of_string_contains.
Qed.


(** C8 (as amended).  The test of line 129 is substring containment
    between the lowercased phrase and the lowercased text, for text of any
    code points; on text of code points below 256 it is the test of
    [matches], which holds exactly when a part of the text has the same
    letters as the phrase, case apart: so ["Quota Exceeded"] matches
    ["quota exceeded"] and ["QUOTA EXCEEDED"], and a phrase inside a longer
    line matches.  On text of any code points a phrase inside a longer line
    matches when no capital sigma is in the phrase. *)
Theorem matching_is_caseless_substring :
  (forall U p data,
     Unicode.matches U p data = true <->
     exists l r,
       Unicode.lower U data = (l ++ Unicode.lower U p ++ r)%list) /\
  (forall U,
     Unicode.latin1_rows U ->
     forall p data : string,
       Unicode.matches U (Unicode.of_string p) (Unicode.of_string data)
       = matches p data) /\
  (forall p data,
     matches p data = true <->
     exists l r, Str.lower data = l ++ Str.lower p ++ r) /\
  (forall p data,
     matches p data = true <->
     exists l m r, data = l ++ m ++ r /\ same_letters m p = true) /\
  matches "Quota Exceeded" "quota exceeded" = true /\
  matches "Quota Exceeded" "QUOTA EXCEEDED" = true /\
  (forall p l r : string, matches p (l ++ p ++ r) = true) /\
  (forall U p l r,
     ~ In Unicode.capital_sigma p ->
     Unicode.matches U p (l ++ p ++ r)%list = true).
Proof.
  split.
  { intros U p data. unfold Unicode.matches. split.
    - apply UnicodeFacts.contained_infix.
    - intros (l & r & ->). apply UnicodeFacts.infix_contained. }
  split.
  { intros U HU p data. apply of_string_matches. exact HU. }
  split; [exact matches_iff|].
  split; [exact matches_same_letters|].
  split; [reflexivity|]. split; [reflexivity|].
  split; [exact matches_literal|].
  intros U p l r Hno. apply UnicodeFacts.matches_plain_literal. exact Hno.
Qed.

(** C8, the claim as stated fails for a phrase with a capital sigma: the
    phrase of capital alpha and capital sigma, lowered on its own, ends in
    the final small sigma; inside the text that goes on with a capital
    alpha the same sigma is lowered to the other small sigma, and the
    phrase does not match the text that contains it. *)
Lemma embedded_sigma_phrase_unmatched :
  Unicode.lower Unicode.rows [913; 931]%N = [945; 962]%N /\
  Unicode.lower Unicode.rows ([] ++ [913; 931] ++ [913])%list%N
  = [945; 963; 945]%N /\
  Unicode.matches Unicode.rows
    [913; 931]%N ([] ++ [913; 931] ++ [913])%list%N = false.
Proof. vm_compute. auto. Qed.

Lemma matching_is_caseless_substring_witness :
  Unicode.matches Unicode.rows
    (Unicode.of_string "Quota Exceeded") (Unicode.of_string "QUOTA EXCEEDED")
  = matches "Quota Exceeded" "QUOTA EXCEEDED" /\
  Unicode.matches Unicode.rows
    [913; 945]%N ([931] ++ [913; 945] ++ [931])%list%N = true.
Proof.
  destruct matching_is_caseless_substring
    as (_ & H2 & _ & _ & _ & _ & _ & H8).
  split.
  - apply (H2 Unicode.rows UnicodeFacts.rows_latin1).
  - apply H8. vm_compute. intros [H|[H|[]]]; discriminate.
Defined.




(** C10.  A call that does not return [True] (it returns [False], or it
    raises) leaves [delayed_check] and [delayed_trigger] as they were: they
    are written only by the call that returns [True]. *)
Theorem no_fire_keeps_cooldown clock data s s' r :
  sync_logic clock data s = (s', r) ->
  r <> Return true ->
  delayed_check s' = delayed_check s /\
  delayed_trigger s' = delayed_trigger s.
Proof.
  intros H Hr. apply sync_logic_loop in H as (w' & H & <-).
  apply loop_delayed in H; done.
Qed.

Lemma no_fire_keeps_cooldown_witness :
  let s := {| rclone_sleeps := [("x", trigger_config 3 60 5)];
              trigger_tracks := ∅;
              delayed_check := 25;
              delayed_trigger := Some "y";
              rclone_extras := [];
              dry_run := false |} in
  let s' := fst (sync_logic (steady 7) "x" s) in
  snd (sync_logic (steady 7) "x" s) = Return false /\
  delayed_check s' = 25 /\ delayed_trigger s' = Some "y".
Proof.
  intros s s'. split; [vm_compute; reflexivity|].
  apply (no_fire_keeps_cooldown (steady 7) "x" s s' (Return false)).
  - vm_compute. reflexivity.
  - discriminate.
Defined.

(** ** Further properties of [sync_logic] *)

Section MoreBody.

Variable clock : Clock.
Variable data : string.

Lemma loop_body_one_step p cfg w w' r :
  loop_body clock data p cfg w = (w', r) ->
  one_step (tracks w !! p) (tracks w' !! p).
Proof.
  intros H. unfold one_step. body_cases.
  all: rewrite ?lookup_insert_eq in *; simplify_eq.
  all: try (left; done).
  all: try (right; left; done).
  all: try (right; right; left; eexists; done).
  all: right; right; right; eexists _, _; split; done.
Qed.

Lemma loop_one_step items : forall w w' r p,
  loop clock data items w = (w', r) ->
  NoDup (phrases items) ->
  one_step (tracks w !! p) (tracks w' !! p).
Proof.
  induction items as [|[q cq] items IH]; intros w w' r p H Hnd.
  - simpl in H. unfold ret in H. simplify_eq. by left.
  - rewrite loop_cons in H.
    change (phrases ((q, cq) :: items)) with (q :: phrases items) in Hnd.
    apply NoDup_cons in Hnd as [Hq Hnd].
    destruct (loop_body clock data q cq w) as [w1 r1] eqn:E.
    pose proof (loop_body_frame _ _ _ _ _ _ _ E) as (_ & _ & _ & Hfr).
    destruct (decide (p = q)) as [->|Hne].
    + apply loop_body_one_step in E.
      destruct r1 as [[|]|e]; simplify_eq; try done.
      apply loop_frame in H as (_ & _ & _ & Hfr').
      rewrite Hfr'; [done|]. rewrite <- list_elem_of_In. done.
    + destruct r1 as [[|]|e]; simplify_eq.
      * rewrite Hfr by done. by left.
      * rewrite <- (Hfr p) by done. eapply IH; eauto.
      * rewrite Hfr by done. by left.
Qed.

End MoreBody.

Section MissingKeys.

Variable clock : Clock.
Variable data : string.

Lemma loop_body_no_timeout p cfg w w' r :
  loop_body clock data p cfg w = (w', r) ->
  matches p data = true ->
  cfg !! "timeout" = None ->
  tracks w !! p = None ->
  r = Raise (KeyError "timeout") /\
  tracks w' !! p = None /\
  delayed_check (self w') = delayed_check (self w) /\
  delayed_trigger (self w') = delayed_trigger (self w).
Proof. intros H Hm HT Htr. body_cases; congruence. Qed.

Lemma loop_body_no_sleep p cfg N T c ex w w' r :
  loop_body clock data p cfg w = (w', r) ->
  matches p data = true ->
  cfg !! "count" = Some N ->
  cfg !! "timeout" = Some T ->
  cfg !! "sleep" = None ->
  tracks w !! p = Some {| count := S c; expires := ex |} ->
  live clock (tracks w !! p) ->
  tracks w' !! p = Some {| count := S (S c); expires := ex |} /\
  delayed_check (self w') = delayed_check (self w) /\
  delayed_trigger (self w') = delayed_trigger (self w) /\
  r = if Z.of_nat (S (S c)) >=? N
      then Raise (KeyError "sleep") else Return false.
Proof.
  intros H Hm HN HT Hsl Htr Hlive. unfold live in Hlive.
  rewrite Htr in Hlive.
  body_cases; try congruence.
  all: rewrite ?lookup_insert_eq in *; simplify_eq.
  all: geb_to_prop;
    try (specialize (Hlive _ _ eq_refl eq_refl (ticks w)); simpl in *; lia).
  all: repeat split; done.
Qed.

End MissingKeys.

Section ShortCircuit.

Variable clock : Clock.
Variable data : string.

Lemma loop_short_circuit (l1 : Sleeps) p cfg (l2 : Sleeps) : forall w w',
  loop clock data (l1 ++ (p, cfg) :: l2)%list w = (w', Return true) ->
  delayed_trigger (self w') = Some p ->
  NoDup (phrases (l1 ++ (p, cfg) :: l2)%list) ->
  forall q, In q (phrases l2) -> tracks w' !! q = tracks w !! q.
Proof.
  induction l1 as [|[q0 c0] l1 IH]; intros w w' H Hd Hnd q Hq.
  - simpl app in H, Hnd. rewrite loop_cons in H.
    change (phrases ((p, cfg) :: l2)) with (p :: phrases l2) in Hnd.
    apply NoDup_cons in Hnd as [Hp Hnd]. rewrite list_elem_of_In in Hp.
    destruct (loop_body clock data p cfg w) as [w1 [[|]|e]] eqn:E;
      simplify_eq.
    + apply loop_body_frame in E as (_ & _ & _ & Hfr). apply Hfr.
      intros ->. done.
    + apply loop_fired in H as (p' & cfg' & Hin & _ & Hd' & _).
      assert (p' = p) by congruence. subst p'.
      exfalso. apply Hp. apply (in_map fst) in Hin. exact Hin.
  - simpl app in H, Hnd. rewrite loop_cons in H.
    change (phrases ((q0, c0) :: (l1 ++ (p, cfg) :: l2)%list))
      with (q0 :: phrases (l1 ++ (p, cfg) :: l2)%list) in Hnd.
    apply NoDup_cons in Hnd as [Hq0 Hnd]. rewrite list_elem_of_In in Hq0.
    assert (Hsub : forall x, In x (phrases l2) ->
                     In x (phrases (l1 ++ (p, cfg) :: l2)%list)).
    { intros x Hx. unfold phrases in *. rewrite map_app, in_app_iff.
      right. simpl. auto. }
    destruct (loop_body clock data q0 c0 w) as [w1 [[|]|e]] eqn:E;
      simplify_eq.
    + apply loop_body_fired in E as (_ & Hd' & _).
      assert (q0 = p) by congruence. subst q0.
      exfalso. apply Hq0. unfold phrases. rewrite map_app, in_app_iff.
      right. simpl. auto.
    + apply loop_body_frame in E as (_ & _ & _ & Hfr).
      rewrite (IH _ _ H Hd Hnd q Hq). apply Hfr.
      intros ->. apply Hq0, Hsub, Hq.
Qed.

End ShortCircuit.

(** ** Further properties: the statements *)

(** X1. A call never changes the configuration, the extras or the dry-run
    flag, and never touches the tracked state of a phrase that is not
    configured. *)
Theorem sync_logic_frame clock data s s' r :
  sync_logic clock data s = (s', r) ->
  rclone_sleeps s' = rclone_sleeps s /\
  rclone_extras s' = rclone_extras s /\
  dry_run s' = dry_run s /\
  (forall q, ~ In q (phrases (rclone_sleeps s)) ->
             trigger_tracks s' !! q = trigger_tracks s !! q).
Proof.
  intros H. apply sync_logic_loop in H as (w' & H & <-).
  apply loop_frame in H. exact H.
Qed.

(** X2. However often a phrase occurs in the text, one call moves its
    tracked state by at most one step: it is left alone, reset, restarted at
    count 1, or its count goes up by exactly one. *)
Theorem sync_logic_counts_once clock data s s' r p :
  sync_logic clock data s = (s', r) ->
  NoDup (phrases (rclone_sleeps s)) ->
  one_step (trigger_tracks s !! p) (trigger_tracks s' !! p).
Proof.
  intros H Hnd. apply sync_logic_loop in H as (w' & H & <-).
  apply (loop_one_step _ _ _ _ _ _ p H Hnd).
Qed.

(** X3. The call returns at the first trigger that fires: the triggers that
    come after it in the configuration are not looked at, so their tracked
    states are as before the call, expired or not, matching or not. *)
Theorem sync_logic_stops_at_first_fire clock data s s' p cfg
    (l1 l2 : Sleeps) :
  sync_logic clock data s = (s', Return true) ->
  delayed_trigger s' = Some p ->
  rclone_sleeps s = (l1 ++ (p, cfg) :: l2)%list ->
  NoDup (phrases (rclone_sleeps s)) ->
  forall q, In q (phrases l2) ->
            trigger_tracks s' !! q = trigger_tracks s !! q.
Proof.
  intros H Hd Heq Hnd q Hq. apply sync_logic_loop in H as (w' & H & <-).
  rewrite Heq in H, Hnd.
  apply (loop_short_circuit _ _ _ _ _ _ _ _ H Hd Hnd q Hq).
Qed.

(** X4. A trigger whose configuration lacks ['timeout'] makes the call raise
    [KeyError] on the first occurrence of its phrase, before anything is
    tracked for it. *)
Theorem missing_timeout_raises clock data s s' r p cfg :
  sync_logic clock data s = (s', r) ->
  In (p, cfg) (rclone_sleeps s) ->
  NoDup (phrases (rclone_sleeps s)) ->
  matches p data = true ->
  only_match (rclone_sleeps s) p data ->
  cfg !! "timeout" = None ->
  trigger_tracks s !! p = None ->
  r = Raise (KeyError "timeout") /\
  trigger_tracks s' !! p = None /\
  delayed_check s' = delayed_check s /\
  delayed_trigger s' = delayed_trigger s.
Proof.
  intros H Hin Hnd Hm Honly HT Htr.
  destruct (sync_logic_focus _ _ _ _ _ _ _ H Hin Hnd Hm Honly)
    as (w1 & w2 & H1 & H2 & H3 & H4 & H5 & H6 & H7).
  rewrite <- H1 in Htr.
  destruct (loop_body_no_timeout _ _ _ _ _ _ _ H4 Hm HT Htr)
    as (-> & Ht & D1 & D2).
  repeat split; congruence.
Qed.

(** X5. A missing ['sleep'] goes unnoticed while the count is below the
    configured one: the calls return [False]. The call that brings the count
    to the configured one raises [KeyError] instead of returning [True]: the
    count has been raised, the cooldown attributes are not written.  (For
    text in which no other configured phrase occurs.) *)
Theorem missing_sleep_raises_on_fire clock data s s' r p cfg N T c ex :
  sync_logic clock data s = (s', r) ->
  In (p, cfg) (rclone_sleeps s) ->
  NoDup (phrases (rclone_sleeps s)) ->
  matches p data = true ->
  only_match (rclone_sleeps s) p data ->
  cfg !! "count" = Some N ->
  cfg !! "timeout" = Some T ->
  cfg !! "sleep" = None ->
  trigger_tracks s !! p = Some {| count := S c; expires := ex |} ->
  live clock (trigger_tracks s !! p) ->
  trigger_tracks s' !! p = Some {| count := S (S c); expires := ex |} /\
  delayed_check s' = delayed_check s /\
  delayed_trigger s' = delayed_trigger s /\
  (Z.of_nat (S (S c)) < N -> r = Return false) /\
  (N <= Z.of_nat (S (S c)) -> r = Raise (KeyError "sleep")).
Proof.
  intros H Hin Hnd Hm Honly HN HT Hsl Htr Hlive.
  destruct (sync_logic_focus _ _ _ _ _ _ _ H Hin Hnd Hm Honly)
    as (w1 & w2 & H1 & H2 & H3 & H4 & H5 & H6 & H7).
  rewrite <- H1 in Htr, Hlive.
  destruct (loop_body_no_sleep _ _ _ _ _ _ _ _ _ _ _ H4 Hm HN HT Hsl Htr
              Hlive) as (Ht & D1 & D2 & Hr).
  split; [congruence|]. split; [congruence|]. split; [congruence|].
  destruct (Z.of_nat (S (S c)) >=? N) eqn:Hge; geb_to_prop;
    split; intros; (done || lia).
Qed.

Section Sequences.

Variables (p : string) (N T sl : Z).

(** With a timeout of 0 or less every window has expired by the next call,
    as long as the clock does not go backwards: each occurrence starts
    over at count 1. *)
Lemma feed_nonpositive_timeout chunks : forall s,
  configured s p N T sl ->
  T <= 0 ->
  occurs_alone (rclone_sleeps s) p chunks ->
  all_can_open T chunks ->
  ordered chunks ->
  match chunks with
  | [] => True
  | ch :: _ => restarts (fst ch) (trigger_tracks s !! p)
  end ->
  exists s',
    feed chunks s = (s', Return (repeat false (length chunks))) /\
    delayed_check s' = delayed_check s /\
    delayed_trigger s' = delayed_trigger s.
Proof.
  induction chunks as [|[c1 d1] chunks IH];
    intros s Hcfg HT Hoc Hopen Hord Hre.
  - exists s. done.
  - apply Forall_cons in Hoc as [[Hm Honly] Hoc]. simpl in Hm, Honly, Hre.
    apply Forall_cons in Hopen as [Hcan Hopen]. simpl in Hcan.
    destruct Hord as [Hle Hord]. simpl feed.
    destruct (sync_logic c1 d1 s) as [s1 r] eqn:E.
    destruct (sync_logic_init _ _ _ _ _ _ _ _ _ E Hcfg Hm Honly Hcan Hre)
      as (-> & [k Hk] & D1 & D2).
    pose proof (sync_logic_sleeps _ _ _ _ _ E) as Hsl.
    destruct (IH s1) as (s2 & F & D3 & D4).
    + eapply sync_logic_configured; eauto.
    + exact HT.
    + rewrite Hsl. exact Hoc.
    + exact Hopen.
    + exact Hord.
    + rewrite Hk. destruct chunks as [|ch chunks]; simpl.
      * exact I.
      * intros j. specialize (Hle ch (or_introl eq_refl) k j). lia.
    + exists s2. rewrite F. simpl. repeat split; congruence.
Qed.

End Sequences.

(** X6. A trigger with a timeout of 0 or less, whose window can be opened
    at the clock of every chunk, never fires while the clock does not go
    backwards: however many chunks contain its phrase and no other
    configured one, every call returns [False] and the cooldown attributes
    stay as they were. *)
Theorem nonpositive_timeout_never_fires s p N T sl chunks :
  configured s p N T sl ->
  T <= 0 ->
  untracked (trigger_tracks s !! p) ->
  occurs_alone (rclone_sleeps s) p chunks ->
  all_can_open T chunks ->
  ordered chunks ->
  exists s',
    feed chunks s = (s', Return (repeat false (length chunks))) /\
    delayed_check s' = delayed_check s /\
    delayed_trigger s' = delayed_trigger s.
Proof.
  intros Hcfg HT Hun Hoc Hopen Hord.
  apply (feed_nonpositive_timeout p N T sl); try done.
  destruct chunks; [done|]. apply untracked_restarts, Hun.
Qed.

(** X7. The first occurrence of a phrase only opens its window, whatever the
    configured count: the call returns [False], leaves the count at 1 and
    does not write the cooldown attributes.  With a count of 2 or less (1,
    0 and negative counts included) it is the second occurrence within the
    window that makes the call return [True].  In both chunks the phrase
    is the only configured one that occurs, and the window can be opened
    at the clock of the first. *)
Theorem small_count_fires_on_second s p N T sl ch1 ch2 :
  configured s p N T sl ->
  untracked (trigger_tracks s !! p) ->
  occurs_alone (rclone_sleeps s) p [ch1; ch2] ->
  can_open (fst ch1) T ->
  in_window T [ch1; ch2] ->
  (exists s1 k,
     sync_logic (fst ch1) (snd ch1) s = (s1, Return false) /\
     trigger_tracks s1 !! p
     = Some {| count := 1; expires := Some (fst ch1 k + T) |} /\
     delayed_check s1 = delayed_check s /\
     delayed_trigger s1 = delayed_trigger s) /\
  (N <= 2 ->
   exists s',
     feed [ch1; ch2] s = (s', Return [false; true]) /\
     delayed_check s' = sl /\
     delayed_trigger s' = Some p).
Proof.
  intros Hcfg Hun Hoc Hcan Hwin.
  destruct ch1 as [c1 d1], ch2 as [c2 d2].
  apply Forall_cons in Hoc as [[Hm1 Ho1] Hoc].
  apply Forall_cons in Hoc as [[Hm2 Ho2] _].
  simpl in Hm1, Ho1, Hm2, Ho2, Hcan. simpl fst. simpl snd.
  destruct (sync_logic c1 d1 s) as [s1 r1] eqn:E1.
  destruct (sync_logic_init _ _ _ _ _ _ _ _ _ E1 Hcfg Hm1 Ho1 Hcan
              (untracked_restarts _ _ Hun)) as (-> & [k Hk] & D1 & D2).
  split; [exists s1, k; done|].
  intros HN. simpl feed. rewrite E1.
  pose proof (sync_logic_sleeps _ _ _ _ _ E1) as Hsl.
  pose proof (sync_logic_configured _ _ _ _ _ _ _ _ _ E1 Hcfg) as Hcfg1.
  rewrite <- Hsl in Ho2.
  destruct (sync_logic c2 d2 s1) as [s2 r2] eqn:E2.
  assert (Hlive : live c2 (trigger_tracks s1 !! p)).
  { intros t e Ht He j. rewrite Hk in Ht. simplify_eq. simpl in He.
    simplify_eq. apply (Hwin (c2, d2)); simpl; auto. }
  destruct (sync_logic_incr _ _ _ _ _ _ _ _ _ E2 Hcfg1 Hm2 Ho2 _ _ Hk Hlive)
    as [_ Hif].
  destruct (Z.of_nat 2 >=? N) eqn:Hge; [|geb_to_prop; lia].
  destruct Hif as (-> & D3 & D4). exists s2. done.
Qed.

(** X8. The empty phrase occurs in every text, and the empty text contains
    no phrase but the empty one. *)
Theorem matches_empty :
  (forall data, matches "" data = true) /\
  (forall p, matches p "" = true <-> p = "").
Proof.
  split.
  - intros data. unfold matches. simpl. destruct (Str.lower data); reflexivity.
  - intros p. unfold matches. destruct p; simpl; split; try done.
Qed.

(** ** Quoting and word splitting *)

Module ShFacts.
Import shlex Sh.

Lemma app_empty_r (s : string) : s ++ "" = s.
Proof.
  induction s as [|c s IH]; [reflexivity|].
  rewrite StrFacts.app_cons, IH. reflexivity.
Qed.

Lemma app_assoc (a b c : string) : (a ++ b) ++ c = a ++ (b ++ c).
Proof.
  induction a as [|x a IH]; [reflexivity|].
  rewrite !StrFacts.app_cons, IH. reflexivity.
Qed.

(** A character that needs no quoting is neither a blank nor a quote. *)
Lemma safe_char_plain c :
  safe_char c = true ->
  blank c = false /\ Ascii.eqb c "'" = false /\ Ascii.eqb c "034" = false.
Proof.
  destruct c as [[] [] [] [] [] [] [] []]; vm_compute; intros H;
    try discriminate; auto.
Qed.

Lemma scan_safe s : forall w acc rest,
  all_safe s = true ->
  scan Plain (Some w) acc (s ++ rest) = scan Plain (Some (w ++ s)) acc rest.
Proof.
  induction s as [|c s IH]; intros w acc rest Hs.
  - rewrite StrFacts.app_nil, app_empty_r. reflexivity.
  - simpl in Hs. apply andb_true_iff in Hs as [Hc Hs].
    destruct (safe_char_plain c Hc) as (Hb & Hq & Hd).
    rewrite StrFacts.app_cons. simpl scan. rewrite Hb, Hq, Hd, Hc.
    rewrite (IH _ _ _ Hs). simpl add. rewrite app_assoc. reflexivity.
Qed.

Lemma replace_quote_cons c s :
  PyStr.replace_from "'" escaped_quote 0 (String c s)
  = if Ascii.eqb c "'"
    then escaped_quote ++ PyStr.replace_from "'" escaped_quote 0 s
    else String c (PyStr.replace_from "'" escaped_quote 0 s).
Proof.
  cbn [PyStr.replace_from Str.startswith String.length Nat.sub].
  rewrite (Ascii.eqb_sym c). destruct (Ascii.eqb "'" c); reflexivity.
Qed.

Lemma scan_single_escaped s : forall w acc rest,
  scan Single (Some w) acc (PyStr.replace "'" escaped_quote s ++ rest)
  = scan Single (Some (w ++ s)) acc rest.
Proof.
  unfold PyStr.replace.
  induction s as [|c s IH]; intros w acc rest.
  - simpl. rewrite StrFacts.app_nil, app_empty_r. reflexivity.
  - rewrite replace_quote_cons. destruct (Ascii.eqb c "'") eqn:Hc.
    + apply Ascii.eqb_eq in Hc. subst c.
      unfold escaped_quote. rewrite !StrFacts.app_cons, StrFacts.app_nil.
      simpl scan. rewrite IH. simpl add. rewrite app_assoc. reflexivity.
    + rewrite StrFacts.app_cons. simpl scan. rewrite Hc.
      rewrite IH. simpl add. rewrite app_assoc. reflexivity.
Qed.

(** Whatever follows it, a quoted string is read back as itself, added to
    the word under way. *)
Lemma scan_quote s w acc rest :
  scan Plain (Some w) acc (quote s ++ rest)
  = scan Plain (Some (w ++ s)) acc rest.
Proof.
  unfold quote. destruct s as [|c s].
  - rewrite app_empty_r. reflexivity.
  - destruct (all_safe (String c s)) eqn:Hs.
    + apply scan_safe. exact Hs.
    + rewrite StrFacts.app_cons. simpl scan.
      rewrite app_assoc, scan_single_escaped. reflexivity.
Qed.

Lemma scan_quote_first s acc rest :
  scan Plain None acc (quote s ++ rest) = scan Plain (Some s) acc rest.
Proof.
  unfold quote. destruct s as [|c s].
  - reflexivity.
  - destruct (all_safe (String c s)) eqn:Hs.
    + rewrite StrFacts.app_cons. simpl in Hs.
      apply andb_true_iff in Hs as [Hc Hs].
      destruct (safe_char_plain c Hc) as (Hb & Hq & Hd).
      simpl scan. rewrite Hb, Hq, Hd, Hc. simpl add.
      rewrite (scan_safe s _ _ _ Hs). reflexivity.
    + rewrite StrFacts.app_cons. simpl scan.
      rewrite app_assoc. apply (scan_single_escaped (String c s) "").
Qed.

End ShFacts.

(** ** [RcloneUploader]: the statements *)

(** X9. What [cmd_quote] returns is one shell word, and that word is the
    string that was quoted: nothing in it is left for the shell to
    interpret. *)
Theorem quote_is_one_word s : Sh.words (cmd_quote s) = Some [s].
Proof.
  unfold Sh.words, cmd_quote.
  rewrite <- (ShFacts.app_empty_r (shlex.quote s)).
  rewrite ShFacts.scan_quote_first. reflexivity.
Qed.

Section UploaderFacts.

Import Uploader.

Variable execute : string -> option string.

Lemma words_verb_path verb_words prefix path self :
  (forall rest, Sh.scan Sh.Plain None [] (prefix ++ rest)
                = Sh.scan Sh.Plain None verb_words rest) ->
  Sh.words (with_dry_run self (prefix ++ cmd_quote path))
  = Some (rev verb_words ++ [path]
          ++ if dry_run self then ["--dry-run"] else [])%list.
Proof.
  intros Hpre. unfold Sh.words, with_dry_run, cmd_quote.
  destruct (dry_run self).
  - rewrite ShFacts.app_assoc, Hpre, ShFacts.scan_quote_first.
    simpl. rewrite <- !app_assoc. reflexivity.
  - rewrite <- (ShFacts.app_empty_r (shlex.quote path)).
    rewrite Hpre, ShFacts.scan_quote_first. reflexivity.
Qed.

(** X10. The command [delete_file] runs is [rclone delete] followed by the
    path as one word, whatever characters the path contains, and by
    [--dry-run] under a dry run. [delete_file] raises nothing: it returns
    [False] when the execution raises or its output contains ["Failed to
    delete"], and [True] otherwise. *)
Theorem delete_file_command self path :
  Sh.words (delete_file_cmd self path)
  = Some (["rclone"; "delete"; path]
          ++ if dry_run self then ["--dry-run"] else [])%list /\
  delete_file execute self path
  = Return (match execute (delete_file_cmd self path) with
            | Some resp => negb (Str.contains "Failed to delete" resp)
            | None => false
            end).
Proof.
  split.
  - apply (words_verb_path ["delete"; "rclone"]). reflexivity.
  - unfold delete_file. destruct (execute _) as [resp|]; [|reflexivity].
    destruct (Str.contains _ resp); reflexivity.
Qed.

(** X11. The same for [delete_folder], with [rclone rmdir] and the marker
    ["Failed to rmdir"]. *)
Theorem delete_folder_command self path :
  Sh.words (delete_folder_cmd self path)
  = Some (["rclone"; "rmdir"; path]
          ++ if dry_run self then ["--dry-run"] else [])%list /\
  delete_folder execute self path
  = Return (match execute (delete_folder_cmd self path) with
            | Some resp => negb (Str.contains "Failed to rmdir" resp)
            | None => false
            end).
Proof.
  split.
  - apply (words_verb_path ["rmdir"; "rclone"]). reflexivity.
  - unfold delete_folder. destruct (execute _) as [resp|]; [|reflexivity].
    destruct (Str.contains _ resp); reflexivity.
Qed.

End UploaderFacts.

(** ** Rendering the extras *)

Module RenderFacts.
Import PyStr shlex Sh Uploader.

Lemma contains_cons_false sub c s :
  Str.contains sub (String c s) = false ->
  Str.startswith sub (String c s) = false /\ Str.contains sub s = false.
Proof. simpl. intros H. apply orb_false_iff in H. exact H. Qed.

(** Text without [=] is copied. *)
Lemma replace_no_eq a : forall b,
  Str.contains "=" a = false ->
  replace_from "=None" "" 0 (a ++ b) = a ++ replace_from "=None" "" 0 b.
Proof.
  induction a as [|c a IH]; intros b Ha; [reflexivity|].
  apply contains_cons_false in Ha as [Hc Ha].
  rewrite !StrFacts.app_cons.
  cbn [replace_from]. cbn [Str.startswith] in Hc |- *.
  destruct (Ascii.eqb "=" c); [discriminate|].
  rewrite (IH _ Ha). reflexivity.
Qed.

Lemma replace_none b :
  replace_from "=None" "" 0 ("=None" ++ b) = replace_from "=None" "" 0 b.
Proof. reflexivity. Qed.

Lemma replace_blank b :
  replace_from "=None" "" 0 (String " " b)
  = String " " (replace_from "=None" "" 0 b).
Proof. reflexivity. Qed.

(** What follows a value is the end of the text or a blank, so a value
    that does not begin with [None] does not come to begin with it. *)
Lemma startswith_None_app x b :
  Str.startswith "None" x = false ->
  b = "" \/ (exists b', b = String " " b') ->
  Str.startswith "None" (x ++ b) = false.
Proof.
  intros Hx Hb. revert Hx.
  destruct x as [|c1 [|c2 [|c3 [|c4 x]]]];
    rewrite ?StrFacts.app_cons, ?StrFacts.app_nil;
    destruct Hb as [->|[b' ->]]; cbn;
    repeat (match goal with
            | |- context [Ascii.eqb ?a ?b] => destruct (Ascii.eqb a b)
            end; try reflexivity; try discriminate);
    auto.
Qed.

Lemma replace_from_0 old new c s :
  replace_from old new 0 (String c s)
  = if Str.startswith old (String c s)
    then new ++ replace_from old new (String.length old - 1) s
    else String c (replace_from old new 0 s).
Proof. reflexivity. Qed.

Lemma startswith_cons a p s :
  Str.startswith (String a p) (String a s) = Str.startswith p s.
Proof. simpl. rewrite Ascii.eqb_refl. reflexivity. Qed.

Lemma replace_value x b :
  Str.contains "=" x = false ->
  Str.startswith "None" (x ++ b) = false ->
  replace_from "=None" "" 0 ("=" ++ x ++ b)
  = "=" ++ x ++ replace_from "=None" "" 0 b.
Proof.
  intros Hx Hs.
  change ("=" ++ x ++ b) with (String "=" (x ++ b)).
  rewrite replace_from_0, startswith_cons, Hs.
  rewrite (replace_no_eq _ _ Hx). reflexivity.
Qed.

Lemma plain_value_not_none v :
  Str.startswith "None" (shown v) = false -> String.eqb (shown v) "None" = false.
Proof.
  intros H. apply String.eqb_neq. intros E. rewrite E in H. discriminate.
Qed.

(** One entry, followed by the end of the text or a blank. *)
Lemma replace_entry kv b :
  plain_entry kv ->
  b = "" \/ (exists b', b = String " " b') ->
  replace_from "=None" "" 0 (entry_text kv ++ b)
  = flag_text kv ++ replace_from "=None" "" 0 b.
Proof.
  destruct kv as [k v]. intros [(Hk & Hsafe & Heq) Hv] Hb.
  unfold entry_text, flag_text. simpl fst in *. simpl snd in *.
  rewrite !ShFacts.app_assoc.
  destruct Hv as [Hn|(Hc & Hs & _)].
  - rewrite Hn. simpl String.eqb.
    rewrite (replace_no_eq _ _ Heq).
    change ("=" ++ "None" ++ b) with ("=None" ++ b).
    rewrite replace_none. reflexivity.
  - rewrite (plain_value_not_none _ Hs).
    rewrite (replace_no_eq _ _ Heq).
    rewrite replace_value; [|exact Hc|apply startswith_None_app; assumption].
    unfold entry_text. simpl fst. simpl snd.
    rewrite !ShFacts.app_assoc. reflexivity.
Qed.

Lemma join_cons2 sep x y l :
  join sep (x :: y :: l) = x ++ sep ++ join sep (y :: l).
Proof. reflexivity. Qed.

(** Taking [=None] out of the joined entries gives the joined flag texts. *)
Lemma replace_join d :
  Forall plain_entry d ->
  replace "=None" "" (join " " (map entry_text d))
  = join " " (map flag_text d).
Proof.
  unfold replace. induction d as [|e [|e2 d] IH]; intros Hd.
  - reflexivity.
  - apply Forall_cons in Hd as [He _]. simpl map. simpl join.
    rewrite <- (ShFacts.app_empty_r (entry_text e)).
    rewrite (replace_entry _ _ He); [|by left].
    simpl. apply ShFacts.app_empty_r.
  - apply Forall_cons in Hd as [He Hd].
    change (map entry_text (e :: e2 :: d))
      with (entry_text e :: map entry_text (e2 :: d)).
    change (map flag_text (e :: e2 :: d))
      with (flag_text e :: map flag_text (e2 :: d)).
    simpl map in IH |- *. rewrite !join_cons2.
    rewrite (replace_entry _ _ He); [|right; eexists; reflexivity].
    change (" " ++ join " " (entry_text e2 :: map entry_text d))
      with (String " " (join " " (entry_text e2 :: map entry_text d))).
    rewrite replace_blank, (IH Hd). reflexivity.
Qed.

(** *** [strip] has nothing to take off *)

Lemma safe_not_space c : safe_char c = true -> isspace c = false.
Proof.
  destruct c as [[] [] [] [] [] [] [] []]; vm_compute; intros H;
    try discriminate; auto.
Qed.

Lemma rstrip_snoc c : forall a,
  isspace c = false -> rstrip (a ++ String c "") = a ++ String c "".
Proof.
  intros a Hc. induction a as [|x a IH].
  - rewrite StrFacts.app_nil. simpl. rewrite Hc. reflexivity.
  - rewrite StrFacts.app_cons. simpl rstrip. rewrite IH.
    destruct a; reflexivity.
Qed.

Lemma last_app x b :
  (exists a c, b = a ++ String c "" /\ isspace c = false) ->
  exists a c, x ++ b = a ++ String c "" /\ isspace c = false.
Proof.
  intros (a & c & -> & Hc). exists (x ++ a), c.
  rewrite ShFacts.app_assoc. auto.
Qed.

Lemma last_safe s :
  all_safe s = true -> s <> "" ->
  exists a c, s = a ++ String c "" /\ isspace c = false.
Proof.
  induction s as [|x s IH]; intros Hs Hne; [done|].
  simpl in Hs. apply andb_true_iff in Hs as [Hx Hs].
  destruct s as [|y s].
  - exists "", x. split; [reflexivity|]. apply safe_not_space, Hx.
  - destruct (IH Hs) as (a & c & E & Hc); [done|].
    exists (String x a), c. rewrite E. auto.
Qed.

Lemma last_quote s :
  exists a c, quote s = a ++ String c "" /\ isspace c = false.
Proof.
  unfold quote. destruct s as [|x s].
  - exists "'", "'"%char. auto.
  - destruct (all_safe (String x s)) eqn:Hs.
    + apply last_safe; done.
    + exists (String "'" (replace "'" escaped_quote (String x s))), "'"%char.
      auto.
Qed.

Lemma last_flag_text kv :
  plain_entry kv ->
  exists a c, flag_text kv = a ++ String c "" /\ isspace c = false.
Proof.
  destruct kv as [k v]. intros [(Hk & Hsafe & Heq) Hv].
  unfold flag_text, entry_text. simpl fst. simpl snd.
  destruct (String.eqb (shown v) "None").
  - apply last_safe; done.
  - apply last_app. destruct v as [x|t]; simpl shown.
    + apply last_app, last_quote.
    + destruct Hv as [Hn|(_ & _ & Ht)].
      * simpl in Hn. subst t. exists "=Non", "e"%char. auto.
      * destruct t as [|y t].
        -- exists "", "="%char. auto.
        -- apply last_app, last_safe; done.
Qed.

Lemma last_join d :
  Forall plain_entry d -> d <> [] ->
  exists a c, join " " (map flag_text d) = a ++ String c ""
              /\ isspace c = false.
Proof.
  induction d as [|e [|e2 d] IH]; intros Hd Hne; [done| |].
  - apply Forall_cons in Hd as [He _]. apply last_flag_text, He.
  - apply Forall_cons in Hd as [He Hd].
    change (map flag_text (e :: e2 :: d))
      with (flag_text e :: map flag_text (e2 :: d)).
    simpl map in IH |- *. rewrite join_cons2.
    apply last_app, last_app, IH; done.
Qed.

Lemma first_join d :
  Forall plain_entry d -> d <> [] ->
  exists c s, join " " (map flag_text d) = String c s /\ isspace c = false.
Proof.
  intros Hd Hne. destruct d as [|[k v] d]; [done|].
  apply Forall_cons in Hd as [[(Hk & Hsafe & _) _] _]. simpl in Hk, Hsafe.
  destruct k as [|c k]; [done|].
  simpl in Hsafe. apply andb_true_iff in Hsafe as [Hc _].
  apply safe_not_space in Hc.
  assert (Hft : exists s, flag_text (String c k, v) = String c s).
  { unfold flag_text, entry_text. simpl fst. simpl snd.
    destruct (String.eqb (shown v) "None"); eexists;
      rewrite ?StrFacts.app_cons; reflexivity. }
  destruct Hft as [s Hs].
  destruct d as [|e2 d].
  - simpl. rewrite Hs. eauto.
  - change (map flag_text ((String c k, v) :: e2 :: d))
      with (flag_text (String c k, v) :: map flag_text (e2 :: d)).
    simpl map. rewrite join_cons2, Hs, StrFacts.app_cons. eauto.
Qed.

Lemma strip_join d :
  Forall plain_entry d ->
  strip (join " " (map flag_text d)) = join " " (map flag_text d).
Proof.
  intros Hd. destruct (decide (d = [])) as [->|Hne]; [reflexivity|].
  unfold strip.
  destruct (first_join d Hd Hne) as (c & s & E & Hc).
  destruct (last_join d Hd Hne) as (a & c' & E' & Hc').
  rewrite E. simpl lstrip. rewrite Hc. rewrite <- E, E'.
  apply rstrip_snoc, Hc'.
Qed.

(** *** The words of the rendered text *)

Lemma scan_safe_first s acc rest :
  all_safe s = true -> s <> "" ->
  scan Plain None acc (s ++ rest) = scan Plain (Some s) acc rest.
Proof.
  intros Hs Hne. destruct s as [|c s]; [done|].
  simpl in Hs. apply andb_true_iff in Hs as [Hc Hs].
  destruct (ShFacts.safe_char_plain c Hc) as (Hb & Hq & Hd).
  rewrite StrFacts.app_cons. simpl scan. rewrite Hb, Hq, Hd, Hc. simpl add.
  rewrite (ShFacts.scan_safe s _ _ _ Hs). reflexivity.
Qed.

Lemma scan_flag kv acc rest :
  plain_entry kv ->
  scan Plain None acc (flag_text kv ++ rest)
  = scan Plain (Some (flag_word kv)) acc rest.
Proof.
  destruct kv as [k v]. intros [(Hk & Hsafe & Heq) Hv].
  unfold flag_text, flag_word, entry_text. simpl fst. simpl snd.
  destruct (String.eqb (shown v) "None") eqn:E.
  - apply scan_safe_first; done.
  - apply String.eqb_neq in E. destruct Hv as [Hn|(_ & _ & Ht)]; [done|].
    rewrite !ShFacts.app_assoc.
    rewrite (scan_safe_first k _ _ Hsafe Hk).
    rewrite (ShFacts.scan_safe "=" k); [|reflexivity].
    destruct v as [x|t]; simpl shown.
    + unfold cmd_quote. rewrite ShFacts.scan_quote.
      rewrite !ShFacts.app_assoc. reflexivity.
    + rewrite (ShFacts.scan_safe t _ _ _ Ht).
      rewrite !ShFacts.app_assoc. reflexivity.
Qed.

Lemma scan_join d : forall acc,
  Forall plain_entry d ->
  scan Plain None acc (join " " (map flag_text d))
  = Some (rev acc ++ map flag_word d)%list.
Proof.
  induction d as [|e [|e2 d] IH]; intros acc Hd.
  - simpl. rewrite app_nil_r. reflexivity.
  - apply Forall_cons in Hd as [He _]. simpl map. simpl join.
    rewrite <- (ShFacts.app_empty_r (flag_text e)).
    rewrite (scan_flag _ _ _ He). reflexivity.
  - apply Forall_cons in Hd as [He Hd].
    change (map flag_text (e :: e2 :: d))
      with (flag_text e :: map flag_text (e2 :: d)).
    change (map flag_word (e :: e2 :: d))
      with (flag_word e :: map flag_word (e2 :: d)).
    simpl map in IH |- *. rewrite join_cons2.
    rewrite (scan_flag _ _ _ He).
    change (scan Plain (Some (flag_word e)) acc
              (" " ++ join " " (flag_text e2 :: map flag_text d)))
      with (scan Plain None (flag_word e :: acc)
              (join " " (flag_text e2 :: map flag_text d))).
    rewrite (IH _ Hd). simpl rev. rewrite <- app_assoc. reflexivity.
Qed.

(** The words read so far can be put aside. *)
Lemma scan_acc s : forall m cur acc base,
  scan m cur (acc ++ base)%list s
  = option_map (fun ws => rev base ++ ws)%list (scan m cur acc s).
Proof.
  induction s as [|c s IH]; intros m cur acc base.
  - destruct m; try reflexivity. cbn [scan option_map].
    destruct cur; cbn [close]; rewrite ?app_comm_cons, rev_app_distr;
      reflexivity.
  - destruct m; simpl.
    + destruct (blank c).
      * destruct cur; simpl; [apply (IH _ _ (_ :: acc))|apply IH].
      * repeat (match goal with
                | |- context [if ?b then _ else _] => destruct b
                end; try apply IH; try reflexivity).
    + destruct (Ascii.eqb c "'"); apply IH.
    + repeat (match goal with
              | |- context [if ?b then _ else _] => destruct b
              end; try apply IH; try reflexivity).
Qed.

(** A line that splits into words, a blank, and more text: the words of
    the line, then what the rest gives. *)
Lemma scan_then_blank a : forall m cur acc ws b,
  scan m cur acc a = Some ws ->
  scan m cur acc (a ++ String " " b) = scan Plain None (rev ws) b.
Proof.
  induction a as [|c a IH]; intros m cur acc ws b H.
  - rewrite StrFacts.app_nil. destruct m; simpl in H; try discriminate.
    simplify_eq. rewrite rev_involutive. reflexivity.
  - rewrite StrFacts.app_cons. destruct m; simpl in H |- *.
    + repeat (match goal with
              | |- context [if ?b then _ else _] => destruct b
              end; try (apply IH; exact H); try discriminate).
    + destruct (Ascii.eqb c "'"); apply IH; exact H.
    + repeat (match goal with
              | |- context [if ?b then _ else _] => destruct b
              end; try (apply IH; exact H); try discriminate).
Qed.

Lemma words_then_blank a b wa wb :
  words a = Some wa -> words b = Some wb ->
  words (a ++ String " " b) = Some (wa ++ wb)%list.
Proof.
  unfold words. intros Ha Hb.
  rewrite (scan_then_blank _ _ _ _ _ _ Ha).
  rewrite <- (app_nil_l (rev wa)), scan_acc, Hb. simpl.
  rewrite rev_involutive. reflexivity.
Qed.

End RenderFacts.

(** ** [__extras2string], [__excludes2string] and [upload]: the statements *)

Section UploadFacts.

Import Uploader.

(** X12. The rendered extras are one shell word per entry, in the order of
    the dict: the key alone for a value shown as [None], [key=value]
    otherwise, the value arriving as it is in the configuration, whatever
    characters a [str] value contains. *)
Theorem extras_one_word_each d :
  Forall plain_entry d ->
  Sh.words (extras2string_of d) = Some (map flag_word d).
Proof.
  intros Hd. unfold extras2string_of.
  rewrite (RenderFacts.replace_join d Hd), (RenderFacts.strip_join d Hd).
  unfold Sh.words. rewrite (RenderFacts.scan_join d [] Hd). reflexivity.
Qed.

Lemma extras_one_word_each_witness :
  Sh.words (extras2string_of [("--drive-chunk-size", PStr "64M");
                              ("--fast-list", PObj "None");
                              ("--checkers", PObj "16");
                              ("--backup-dir", PStr "my dir/it's")])
  = Some ["--drive-chunk-size=64M"; "--fast-list"; "--checkers=16";
          "--backup-dir=my dir/it's"].
Proof.
  apply (extras_one_word_each
           [("--drive-chunk-size", PStr "64M");
            ("--fast-list", PObj "None");
            ("--checkers", PObj "16");
            ("--backup-dir", PStr "my dir/it's")]).
  repeat (apply List.Forall_cons;
          [split;
           [repeat split; (discriminate || reflexivity)
           |first [left; reflexivity | right; repeat split; reflexivity]]|]).
  apply List.Forall_nil.
Defined.

Lemma excludes_as_extras l :
  excludes2string_of l
  = extras2string_of (map (fun v => ("--exclude", v)) l).
Proof.
  unfold excludes2string_of, extras2string_of. rewrite map_map.
  reflexivity.
Qed.

(** X13. The rendered excludes are one shell word [--exclude=pattern] per
    pattern, the pattern arriving as it is in the configuration. *)
Theorem excludes_one_word_each l :
  Forall plain_value l ->
  Sh.words (excludes2string_of l)
  = Some (map (fun v => flag_word ("--exclude", v)) l).
Proof.
  intros Hl. rewrite excludes_as_extras, extras_one_word_each.
  - rewrite map_map. reflexivity.
  - apply Forall_map. eapply Forall_impl; [exact Hl|].
    intros v Hv. split; [|exact Hv].
    repeat split; try done.
Qed.

Lemma excludes_one_word_each_witness :
  Sh.words (excludes2string_of [PStr "**partial~"; PStr "my notes/*.txt"])
  = Some ["--exclude=**partial~"; "--exclude=my notes/*.txt"].
Proof.
  apply (excludes_one_word_each [PStr "**partial~"; PStr "my notes/*.txt"]).
  repeat (apply List.Forall_cons;
          [first [left; reflexivity | right; repeat split; reflexivity]|]).
  apply List.Forall_nil.
Defined.

Variable execute : string -> option string.

(** X14. [upload] lets one exception escape: with ['upload_folder'] missing
    its [except] clause raises [KeyError] in its turn. With the key present
    [upload] raises nothing, and returns [False] when another key is
    missing. *)
Theorem upload_missing_keys self :
  (upload_folder (config self) = None ->
   upload execute self = Raise (KeyError "upload_folder")) /\
  (forall e, upload execute self = Raise e ->
             upload_folder (config self) = None) /\
  (is_Some (upload_folder (config self)) ->
   upload_remote (config self) = None \/
   rclone_extras (config self) = None \/
   rclone_excludes (config self) = None ->
   upload execute self = Return false).
Proof.
  unfold upload, upload_handler, upload_cmd, extras2string, excludes2string.
  repeat split.
  - intros ->. reflexivity.
  - intros e. destruct (upload_folder (config self)); [|done].
    repeat (case_match; try done).
  - intros [f Hf]. rewrite Hf.
    intros [->|[->| ->]]; repeat (case_match; try done); reflexivity.
Qed.

Lemma words_move folder remote :
  Sh.words ("rclone move " ++ cmd_quote folder ++ " " ++ cmd_quote remote)
  = Some ["rclone"; "move"; folder; remote].
Proof.
  unfold Sh.words, cmd_quote.
  change (Sh.scan Sh.Plain None []
            ("rclone move " ++ shlex.quote folder ++ " " ++ shlex.quote remote))
    with (Sh.scan Sh.Plain None ["move"; "rclone"]
            (shlex.quote folder ++ " " ++ shlex.quote remote)).
  rewrite ShFacts.scan_quote_first.
  change (Sh.scan Sh.Plain (Some folder) ["move"; "rclone"]
            (" " ++ shlex.quote remote))
    with (Sh.scan Sh.Plain None [folder; "move"; "rclone"]
            (shlex.quote remote)).
  rewrite <- (ShFacts.app_empty_r (shlex.quote remote)).
  rewrite ShFacts.scan_quote_first. reflexivity.
Qed.

Lemma words_optional cmd extra ws we :
  Sh.words cmd = Some ws ->
  Sh.words extra = Some we ->
  Sh.words (if (2 <? String.length extra)%nat then cmd ++ " " ++ extra
            else cmd)
  = Some (ws ++ if (2 <? String.length extra)%nat then we else [])%list.
Proof.
  intros Hc He. destruct (2 <? String.length extra)%nat.
  - apply (RenderFacts.words_then_blank cmd extra); assumption.
  - rewrite app_nil_r. exact Hc.
Qed.

(** X15. The command [upload] runs, for a configuration whose extras and
    excludes are plain: [rclone move], the folder and the remote as one word
    each whatever characters they contain, one word per extra and per
    exclude, and [--dry-run] under a dry run. Rendered extras, or excludes,
    of two characters or less are left out. [upload] returns [True] when the
    execution returns, whatever its output, and [False] when it raises. *)
Theorem upload_command self folder remote d l :
  upload_folder (config self) = Some folder ->
  upload_remote (config self) = Some remote ->
  rclone_extras (config self) = Some d ->
  rclone_excludes (config self) = Some l ->
  Forall plain_entry d ->
  Forall plain_value l ->
  exists cmd,
    upload_cmd self = Some cmd /\
    Sh.words cmd
    = Some (["rclone"; "move"; folder; remote]
            ++ (if (2 <? String.length (extras2string_of d))%nat
                then map flag_word d else [])
            ++ (if (2 <? String.length (excludes2string_of l))%nat
                then map (fun v => flag_word ("--exclude", v)) l else [])
            ++ (if dry_run self then ["--dry-run"] else []))%list /\
    upload execute self
    = Return (match execute cmd with Some _ => true | None => false end).
Proof.
  intros Hf Hr He Hx Hd Hl.
  unfold upload, upload_cmd, extras2string, excludes2string.
  rewrite Hf, Hr, He, Hx. eexists. split; [reflexivity|]. split.
  - pose proof (words_optional _ _ _ _ (words_move folder remote)
                  (extras_one_word_each d Hd)) as H1.
    pose proof (words_optional _ _ _ _ H1 (excludes_one_word_each l Hl))
      as H2.
    unfold with_dry_run. destruct (dry_run self).
    + rewrite (RenderFacts.words_then_blank _ "--dry-run" _ ["--dry-run"] H2);
        [|reflexivity].
      rewrite <- !app_assoc. reflexivity.
    + rewrite H2, app_nil_r, <- !app_assoc. reflexivity.
  - destruct (execute _); [reflexivity|].
    unfold upload_handler. rewrite Hf. reflexivity.
Qed.

End UploadFacts.

(** ** Instances *)

Section Instances.

Import Uploader.

Lemma upload_command_witness :
  let self := Uploader.__init__ "gdrive"
                {| Uploader.upload_folder := Some "/mnt/my files";
                   upload_remote := Some "gdrive:/Media";
                   rclone_extras := Some [("--checkers", PObj "16");
                                          ("-v", PObj "None")];
                   rclone_excludes := Some [PStr "*.partial~"] |} true in
  exists cmd,
    upload_cmd self = Some cmd /\
    Sh.words cmd
    = Some ["rclone"; "move"; "/mnt/my files"; "gdrive:/Media";
            "--checkers=16"; "-v"; "--exclude=*.partial~"; "--dry-run"] /\
    upload (fun _ => Some "Transferred: 0 / 0 Bytes") self = Return true.
Proof.
  intros self.
  apply (upload_command (fun _ => Some "Transferred: 0 / 0 Bytes") self
           "/mnt/my files" "gdrive:/Media"
           [("--checkers", PObj "16"); ("-v", PObj "None")]
           [PStr "*.partial~"]); try reflexivity.
  - repeat (apply List.Forall_cons;
            [split;
             [repeat split; (discriminate || reflexivity)
             |first [left; reflexivity | right; repeat split; reflexivity]]|]).
    apply List.Forall_nil.
  - repeat (apply List.Forall_cons;
            [first [left; reflexivity | right; repeat split; reflexivity]|]).
    apply List.Forall_nil.
Defined.

Lemma upload_missing_keys_witness :
  upload (fun _ => Some "")
         (Uploader.__init__ "gdrive"
            {| upload_folder := None;
               upload_remote := Some "gdrive:/Media";
               rclone_extras := Some [];
               rclone_excludes := Some [] |} false)
  = Raise (KeyError "upload_folder").
Proof.
  apply (upload_missing_keys (fun _ => Some "")). reflexivity.
Defined.

End Instances.

Lemma sync_logic_frame_witness :
  let s := new_syncer [("x", trigger_config 3 60 5)] in
  let s' := fst (sync_logic (steady 7) "x" s) in
  rclone_sleeps s' = rclone_sleeps s /\
  rclone_extras s' = rclone_extras s /\
  dry_run s' = dry_run s /\
  (forall q, ~ In q (phrases (rclone_sleeps s)) ->
             trigger_tracks s' !! q = trigger_tracks s !! q).
Proof.
  intros s s'.
  apply (sync_logic_frame (steady 7) "x" s s' (Return false)).
  vm_compute. reflexivity.
Defined.

Lemma sync_logic_counts_once_witness :
  let s := new_syncer [("x", trigger_config 3 60 5)] in
  let s' := fst (sync_logic (steady 7) "x x x x" s) in
  one_step (trigger_tracks s !! "x") (trigger_tracks s' !! "x").
Proof.
  intros s s'.
  apply (sync_logic_counts_once (steady 7) "x x x x" s s' (Return false)).
  - vm_compute. reflexivity.
  - apply NoDup_singleton.
Defined.

Lemma sync_logic_stops_at_first_fire_witness :
  let s := {| rclone_sleeps := [("a", trigger_config 2 60 5);
                                ("b", trigger_config 2 60 9)];
              trigger_tracks :=
                <["a" := {| count := 1; expires := Some 60 |}]>
                  {["b" := {| count := 1; expires := Some 60 |}]};
              delayed_check := 0;
              delayed_trigger := None;
              rclone_extras := [];
              dry_run := false |} in
  let s' := fst (sync_logic (steady 1) "a b" s) in
  snd (sync_logic (steady 1) "a b" s) = Return true /\
  trigger_tracks s' !! "b" = trigger_tracks s !! "b".
Proof.
  intros s s'. split; [vm_compute; reflexivity|].
  apply (sync_logic_stops_at_first_fire (steady 1) "a b" s s' "a"
           (trigger_config 2 60 5) [] [("b", trigger_config 2 60 9)]).
  - vm_compute. reflexivity.
  - vm_compute. reflexivity.
  - reflexivity.
  - apply NoDup_cons. split; [|apply NoDup_singleton].
    intros H. apply list_elem_of_singleton in H. discriminate.
  - left. reflexivity.
Defined.

Lemma missing_timeout_raises_witness :
  let s := new_syncer [("x", <["count" := 3]> ∅)] in
  snd (sync_logic (steady 7) "x" s) = Raise (KeyError "timeout").
Proof.
  intros s.
  destruct (sync_logic (steady 7) "x" s) as [s' r] eqn:E.
  apply (missing_timeout_raises (steady 7) "x" s s' r "x"
           (<["count" := 3]> ∅) E).
  - left. reflexivity.
  - apply NoDup_singleton.
  - reflexivity.
  - apply only_match_single.
  - reflexivity.
  - reflexivity.
Defined.

Lemma missing_sleep_raises_on_fire_witness :
  let cfg : TriggerConfig := <["count" := 2]> (<["timeout" := 60]> ∅) in
  let s := {| rclone_sleeps := [("x", cfg)];
              trigger_tracks := {["x" := {| count := 1; expires := Some 60 |}]};
              delayed_check := 0;
              delayed_trigger := None;
              rclone_extras := [];
              dry_run := false |} in
  snd (sync_logic (steady 7) "x" s) = Raise (KeyError "sleep").
Proof.
  intros cfg s.
  destruct (sync_logic (steady 7) "x" s) as [s' r] eqn:E.
  apply (missing_sleep_raises_on_fire (steady 7) "x" s s' r "x" cfg
           2 60 0%nat (Some 60) E).
  - left. reflexivity.
  - apply NoDup_singleton.
  - reflexivity.
  - apply only_match_single.
  - reflexivity.
  - reflexivity.
  - reflexivity.
  - reflexivity.
  - intros t e Ht He k. vm_compute in Ht. simplify_eq. simpl in He.
    simplify_eq. vm_compute. reflexivity.
  - simpl. lia.
Defined.

Lemma nonpositive_timeout_never_fires_witness :
  let s := new_syncer [("x", trigger_config 2 (-5) 5)] in
  let chunks := [(steady 10, "x"); (steady 10, "x"); (steady 13, "x")] in
  exists s',
    feed chunks s = (s', Return (repeat false (length chunks))) /\
    delayed_check s' = delayed_check s /\
    delayed_trigger s' = delayed_trigger s.
Proof.
  intros s chunks.
  apply (nonpositive_timeout_never_fires s "x" 2 (-5) 5 chunks).
  - apply configured_single.
  - lia.
  - exact I.
  - repeat constructor; apply only_match_single.
  - repeat constructor; intros k; vm_compute; reflexivity.
  - simpl. repeat split;
      try (intros ch [<-|[<-|[]]] k k'; vm_compute; discriminate).
    + intros ch [<-|[]] k k'. vm_compute. discriminate.
    + intros ch [].
Defined.

Lemma small_count_fires_on_second_witness :
  let s := new_syncer [("x", trigger_config 1 60 5)] in
  (exists s1 k,
     sync_logic (steady 0) "x" s = (s1, Return false) /\
     trigger_tracks s1 !! "x"
     = Some {| count := 1; expires := Some (steady 0 k + 60) |} /\
     delayed_check s1 = delayed_check s /\
     delayed_trigger s1 = delayed_trigger s) /\
  (1 <= 2 ->
   exists s',
     feed [(steady 0, "x"); (steady 59, "x")] s
     = (s', Return [false; true]) /\
     delayed_check s' = 5 /\
     delayed_trigger s' = Some "x").
Proof.
  intros s.
  apply (small_count_fires_on_second s "x" 1 60 5
           (steady 0, "x") (steady 59, "x")).
  - apply configured_single.
  - exact I.
  - repeat constructor; apply only_match_single.
  - apply can_open_short. lia.
  - intros ch [<-|[]] k k'. vm_compute. reflexivity.
Defined.
